(** * Hypercube Evolution: generator and projector of [src/App.tsx]

    A shallow embedding of [generateHypercube] and of the [projectedVertices]
    memo of [HypercubeVisualizer], with the properties of the specification
    stated against them; then of what [HypercubeVisualizer] returns, of the
    state of [App] under its timer and buttons, and of the two tables of
    [constants.ts], with properties read off the code.

    Conventions of the embedding.
    - The dimension and the loop counters are integral JavaScript numbers,
      taken as exact: they are [Z].  The bit operators [<<], [>>], [^] and
      [&] work on 32-bit two's complement integers; their wrap-around is
      written out.
    - The other numbers (coordinates, the size, the projected points) are
      IEEE doubles in the source; they are idealised as real numbers.  The
      one non-real value the code can produce, the [NaN] coming from a read
      past the end of a point, is kept as a value of its own.
    - An array filled by [push] inside a [for] loop is a list threaded
      through the loop as its state.  An array holds at most [2^32 - 1]
      elements: a [push] past that throws [RangeError], which ends the
      function; a computation that can throw returns a [result]. *)

From Stdlib Require Import ZArith List Bool Lia Reals Lra FinFun.
From Stdlib Require String.
Import ListNotations.

Local Open Scope Z_scope.

(** ** 32-bit integer operators of JavaScript *)

Module Int32.

(** [ToInt32] of the language definition, on an integral number. *)
Definition ToInt32 (z : Z) : Z :=
  let m := z mod 2 ^ 32 in
  if m <? 2 ^ 31 then m else m - 2 ^ 32.

(** [a << b]: the shift count is taken modulo 32, the result wraps. *)
Definition shl (a b : Z) : Z :=
  ToInt32 (Z.shiftl (ToInt32 a) (b mod 32)).

(** [a >> b]: sign-propagating shift, count modulo 32. *)
Definition sar (a b : Z) : Z :=
  Z.shiftr (ToInt32 a) (b mod 32).

(** [a ^ b] *)
Definition xor (a b : Z) : Z :=
  ToInt32 (Z.lxor (ToInt32 a) (ToInt32 b)).

(** [a & b] *)
Definition and (a b : Z) : Z :=
  ToInt32 (Z.land (ToInt32 a) (ToInt32 b)).

End Int32.

(** ** Loops and arrays *)

(** The values the counter of [for (let i = 0; i < n; i++)] takes. *)
Definition range (n : Z) : list Z :=
  map Z.of_nat (seq 0 (Z.to_nat n)).

(** [for (let i = 0; i < n; i++) body], as a transformer of the state the
    body updates. *)
Definition for_loop {St : Type} (n : Z) (body : Z -> St -> St) (s : St) : St :=
  fold_left (fun acc i => body i acc) (range n) s.

(** A value, or the [RangeError] thrown on the way to it. *)
Inductive result (A : Type) : Type :=
| Ok (a : A) : result A
| RangeError : result A.

Arguments Ok {A} a.
Arguments RangeError {A}.

Definition bind {A B : Type} (r : result A) (k : A -> result B) : result B :=
  match r with
  | Ok a => k a
  | RangeError => RangeError
  end.

Notation "x <- r ;; k" := (bind r (fun x => k))
  (at level 61, r at next level, right associativity).

(** [arr.push(v)]: the new length must not pass [2^32 - 1]. *)
Definition push {A : Type} (arr : list A) (v : A) : result (list A) :=
  if Z.of_nat (length arr) <? 2 ^ 32 - 1 then Ok (arr ++ [v]) else RangeError.

(** [for (let i = 0; i < n; i++) body] with a body that can throw: the
    first throw ends the loop. *)
Definition for_loopE {St : Type}
    (n : Z) (body : Z -> St -> result St) (s : St) : result St :=
  fold_left (fun acc i => a <- acc ;; body i a) (range n) (Ok s).

(** ** The generator *)

Definition PointND := list R.
Definition Edge := (Z * Z)%type.

Record Hypercube := mkHypercube {
  vertices : list PointND;
  edges : list Edge
}.

(** The coordinate pushed at line 18: [(i >> j) & 1 ? 0.5 : -0.5]. *)
Definition coordinate (i j : Z) : R :=
  if Int32.and (Int32.sar i j) 1 =? 0 then (-0.5)%R else 0.5%R.

Definition generateHypercube (dimension : Z) : result Hypercube :=
  if dimension <? 1 then
    if dimension =? 0
    then Ok {| vertices := [[0%R]]; edges := [] |}
    else Ok {| vertices := []; edges := [] |}
  else
    let numVertices := Int32.shl 1 dimension in
    vertices <-
      for_loopE numVertices (fun i vertices =>
        point <-
          for_loopE dimension (fun j point => push point (coordinate i j)) [] ;;
        push vertices point) [] ;;
    edges <-
      for_loopE numVertices (fun i edges =>
        for_loopE dimension (fun j edges =>
          let neighbor := Int32.xor i (Int32.shl 1 j) in
          if i <? neighbor then push edges (i, neighbor) else Ok edges) edges) [] ;;
    Ok {| vertices := vertices; edges := edges |}.

(** ** The projector *)

(** A JavaScript number as the projector sees it: a real, or [NaN]. *)
Inductive number : Type :=
| NaN : number
| Num (r : R) : number.

Definition nadd (a b : number) : number :=
  match a, b with
  | Num r, Num s => Num (r + s)
  | _, _ => NaN
  end.

Definition nmul (a b : number) : number :=
  match a, b with
  | Num r, Num s => Num (r * s)
  | _, _ => NaN
  end.

(** [point[k]]: [undefined] past the end, which arithmetic turns into [NaN]. *)
Definition index (point : PointND) (k : Z) : number :=
  match nth_error point (Z.to_nat k) with
  | Some r => Num r
  | None => NaN
  end.

Record Point2D := mkPoint2D {
  x : number;
  y : number
}.

(** The body of the [map] callback, lines 62 to 73. *)
Definition projectPoint (dimension : Z) (size : R) (point : PointND) : Point2D :=
  let '(x, y) :=
    for_loop dimension (fun k '(x, y) =>
      let angle := (PI * IZR k / (IZR dimension - 1.5))%R in
      (nadd x (nmul (index point k) (Num (cos angle))),
       nadd y (nmul (index point k) (Num (sin angle)))))
      (Num 0, Num 0) in
  let scaleFactor := (size * 2.2 / (IZR dimension - 1))%R in
  {| x := nmul x (Num scaleFactor); y := nmul y (Num scaleFactor) |}.

(** The memoised value [projectedVertices], as a function of what it
    depends on: [nDVertices], [dimension] and [size]. *)
Definition projectedVertices
    (nDVertices : list PointND) (dimension : Z) (size : R) : list Point2D :=
  if dimension =? 0 then [ {| x := Num 0; y := Num 0 |} ]
  else if dimension =? 1 then
    [ {| x := Num (- size / 2); y := Num 0 |};
      {| x := Num (size / 2); y := Num 0 |} ]
  else if dimension =? 2 then
    [ {| x := Num (- size / 2); y := Num (- size / 2) |};
      {| x := Num (size / 2);   y := Num (- size / 2) |};
      {| x := Num (- size / 2); y := Num (size / 2) |};
      {| x := Num (size / 2);   y := Num (size / 2) |} ]
  else map (projectPoint dimension size) nDVertices.

(** ** Notions the properties are stated with *)

(** [sum_{k=0}^{n-1} f k] *)
Fixpoint Rsum (n : nat) (f : nat -> R) : R :=
  match n with
  | O => 0%R
  | S m => (Rsum m f + f m)%R
  end.

(** The point the specification gives for a vertex [p] in dimension [d]. *)
Definition specPoint (d : Z) (s : R) (p : PointND) : Point2D :=
  let S := (s * 2.2 / (IZR d - 1))%R in
  let angle (k : nat) := (PI * INR k / (IZR d - 1.5))%R in
  {| x := Num (S * Rsum (Z.to_nat d) (fun k => nth k p 0%R * cos (angle k)))%R;
     y := Num (S * Rsum (Z.to_nat d) (fun k => nth k p 0%R * sin (angle k)))%R |}.

(** Two indices differ in exactly one bit of their binary representations. *)
Definition one_bit_apart (i j : Z) : Prop :=
  exists k, 0 <= k /\
    forall n, 0 <= n -> (Z.testbit i n <> Z.testbit j n <-> n = k).

Definition Edge_eq_dec (a b : Edge) : {a = b} + {a <> b}.
Proof. decide equality; apply Z.eq_dec. Defined.

(** The loops of the generator without their state. *)
Definition vertexAt (dimension i : Z) : PointND :=
  map (coordinate i) (range dimension).

Definition edgesFrom (dimension i : Z) : list Edge :=
  flat_map (fun j =>
    let neighbor := Int32.xor i (Int32.shl 1 j) in
    if i <? neighbor then [(i, neighbor)] else []) (range dimension).

(** The two arrays the loops fill at a dimension [d >= 1], when no [push]
    throws. *)
Definition cubeVertices (d : Z) : list PointND :=
  map (vertexAt d) (range (Int32.shl 1 d)).

Definition cubeEdges (d : Z) : list Edge :=
  flat_map (edgesFrom d) (range (Int32.shl 1 d)).

Definition cube (d : Z) : Hypercube :=
  {| vertices := cubeVertices d; edges := cubeEdges d |}.

(** The elements of [xs] pushed one after the other. *)
Definition push_all {A : Type} (arr xs : list A) : result (list A) :=
  fold_left (fun acc v => a <- acc ;; push a v) xs (Ok arr).

(** The edges leaving [i] upwards: one per clear bit of [i]. *)
Definition upward (d i : Z) : list Edge :=
  map (fun j => (i, i + 2 ^ j)) (filter (fun j => negb (Z.testbit i j)) (range d)).

(** ** The rendering of [HypercubeVisualizer] *)

(** [arr[i]] for an integral [i]: [undefined] outside the array. *)
Definition at_index {A : Type} (arr : list A) (i : Z) : option A :=
  if i <? 0 then None else nth_error arr (Z.to_nat i).

(** The data-dependent attributes of the elements the component returns:
    a [line] per edge (or [null]), a [circle] per projected vertex; the
    constant attributes (view box, stroke width, radius) are left out. *)
Record Line := mkLine {
  x1 : number; y1 : number;
  x2 : number; y2 : number
}.

Record Circle := mkCircle {
  cx : number;
  cy : number
}.

Record Svg := mkSvg {
  stroke : String.string;
  lines : list (option Line);
  fill : String.string;
  circles : list Circle
}.

(** The callback of [edges.map], lines 85 to 90. *)
Definition drawEdge (projected : list Point2D) (e : Edge) : option Line :=
  let '(i, j) := e in
  match at_index projected i, at_index projected j with
  | Some p1, Some p2 =>
      Some {| x1 := x p1; y1 := y p1; x2 := x p2; y2 := y p2 |}
  | _, _ => None
  end.

(** The component, lines 43 to 100; [None] is the [null] of line 78, and
    a throw of the generator is a throw of the component. *)
Definition HypercubeVisualizer
    (dimension : Z) (size : R) (color : String.string) : result (option Svg) :=
  hypercube <- generateHypercube dimension ;;
  let nDVertices := vertices hypercube in
  let projected := projectedVertices nDVertices dimension size in
  if (length projected =? 0)%nat then Ok None
  else Ok (Some {| stroke := color;
                   lines := map (drawEdge projected) (edges hypercube);
                   fill := color;
                   circles := map (fun p => {| cx := x p; cy := y p |}) projected |}).

(** ** The lookup tables of [constants.ts] *)

Module Constants.
Import String.
Local Open Scope string_scope.

Definition HYPERCUBE_NAMES : list string :=
  [ "Point"; "Segment"; "Square"; "Cube"; "Tesseract"; "Penteract";
    "Hexeract"; "Hepteract"; "Octeract"; "Enneract" ].

Definition DIMENSION_COLORS : list string :=
  [ "#9ca3af"; "#9ca3af"; "#3b82f6"; "#22c55e"; "#8b5cf6"; "#ef4444";
    "#eab308"; "#f97316"; "#14b8a6"; "#ec4899" ].

(** [DIMENSION_COLORS[dimension] || '#ffffff']: the fallback is taken when
    the entry is missing or is the empty string. *)
Definition currentColor (dimension : Z) : string :=
  match at_index DIMENSION_COLORS dimension with
  | Some c => if String.eqb c "" then "#ffffff" else c
  | None => "#ffffff"
  end.

End Constants.

(** ** The state of [App] *)

Module App.

Record State := mkState {
  dimension : Z;
  isPlaying : bool;
  speed : R
}.

(** The three [useState] initial values. *)
Definition initial : State :=
  {| dimension := 2; isPlaying := true; speed := 1%R |}.

(** The updater passed to [setDimension] by the timer, line 122. *)
Definition advance (d : Z) : Z :=
  if d >=? 9 then 2 else d + 1.

(** The delay of the timer, line 120. *)
Definition interval (s : State) : R := (3000 / speed s)%R.

Inductive Event : Type :=
| TimerFired
| ResetClicked
| PlayPauseClicked
| SpeedChanged (v : R).

(** The effect installs a timer only while playing and clears it when the
    state changes, so a timer firing in a paused state changes nothing. *)
Definition handle (s : State) (e : Event) : State :=
  match e with
  | TimerFired =>
      if isPlaying s
      then {| dimension := advance (dimension s);
              isPlaying := isPlaying s; speed := speed s |}
      else s
  | ResetClicked =>
      {| dimension := 2; isPlaying := false; speed := speed s |}
  | PlayPauseClicked =>
      {| dimension := dimension s;
         isPlaying := negb (isPlaying s); speed := speed s |}
  | SpeedChanged v =>
      {| dimension := dimension s; isPlaying := isPlaying s; speed := v |}
  end.

Definition run (s : State) (events : list Event) : State :=
  fold_left handle events s.

(** A state the application can be in. *)
Definition reachable (s : State) : Prop :=
  exists events, s = run initial events.

(** The visualizer as [App] mounts it, lines 147 to 152. *)
Definition view (s : State) : result (option Svg) :=
  HypercubeVisualizer (dimension s) 100 (Constants.currentColor (dimension s)).

(** The name shown in the footer, line 161. *)
Definition name (s : State) : option String.string :=
  at_index Constants.HYPERCUBE_NAMES (dimension s).

End App.

(** ** Further notions the properties are stated with *)

(** An edge touches the vertex of index [v]. *)
Definition incident (v : Z) (e : Edge) : bool :=
  (fst e =? v) || (snd e =? v).

(** A point scaled by a real factor. *)
Definition scalePoint (c : R) (p : Point2D) : Point2D :=
  {| x := nmul (Num c) (x p); y := nmul (Num c) (y p) |}.

(** ** Small checks of the embedding *)

Example generate_3 : generateHypercube 3 = Ok (cube 3).
Proof. vm_compute. reflexivity. Qed.

Example edges_3 :
  cubeEdges 3 =
  [(0,1); (0,2); (0,4); (1,3); (1,5); (2,3); (2,6); (3,7); (4,5); (4,6); (5,7); (6,7)].
Proof. vm_compute. reflexivity. Qed.

Example generate_4 :
  generateHypercube 4 = Ok (cube 4) /\
  length (cubeVertices 4) = 16%nat /\ length (cubeEdges 4) = 32%nat.
Proof. vm_compute. repeat split. Qed.

(** ** Loops as list functions *)

Lemma flat_map_singleton {A B : Type} (f : A -> B) (l : list A) :
  flat_map (fun a => [f a]) l = map f l.
Proof. induction l as [|a l IH]; simpl; [reflexivity | now rewrite IH]. Qed.

Lemma in_range (n i : Z) : In i (range n) <-> 0 <= i < n.
Proof.
  unfold range. rewrite in_map_iff. split.
  - intros [k [<- Hk]]. apply in_seq in Hk. lia.
  - intros Hi. exists (Z.to_nat i). split; [lia|]. apply in_seq. lia.
Qed.

Lemma length_range (n : Z) : length (range n) = Z.to_nat n.
Proof. unfold range. now rewrite length_map, length_seq. Qed.

Lemma NoDup_range (n : Z) : NoDup (range n).
Proof.
  unfold range. apply Injective_map_NoDup.
  - intros a b. lia.
  - apply seq_NoDup.
Qed.

Lemma nth_error_range (n : Z) (k : nat) :
  (k < Z.to_nat n)%nat -> nth_error (range n) k = Some (Z.of_nat k).
Proof.
  intros Hk. unfold range. rewrite nth_error_map.
  rewrite nth_error_seq. destruct (Nat.ltb_spec k (Z.to_nat n)); [reflexivity | lia].
Qed.

(** ** Loops that can throw *)

Section Throwing.
Context {I St : Type}.
Variable body : I -> St -> result St.

Lemma foldE_error (l : list I) :
  fold_left (fun acc i => a <- acc ;; body i a) l RangeError = RangeError.
Proof. induction l as [|i l IH]; [reflexivity | exact IH]. Qed.

Lemma foldE_cons (i : I) (l : list I) (s : St) :
  fold_left (fun acc i => a <- acc ;; body i a) (i :: l) (Ok s) =
  a <- body i s ;; fold_left (fun acc i => a <- acc ;; body i a) l (Ok a).
Proof.
  simpl. destruct (body i s); [reflexivity | apply foldE_error].
Qed.

Lemma foldE_app (l1 l2 : list I) (s : St) :
  fold_left (fun acc i => a <- acc ;; body i a) (l1 ++ l2) (Ok s) =
  a <- fold_left (fun acc i => a <- acc ;; body i a) l1 (Ok s) ;;
  fold_left (fun acc i => a <- acc ;; body i a) l2 (Ok a).
Proof.
  rewrite fold_left_app.
  destruct (fold_left _ l1 (Ok s)); [reflexivity | apply foldE_error].
Qed.
End Throwing.

Section Pushing.
Context {A : Type}.

Lemma push_ok (arr r : list A) (v : A) :
  push arr v = Ok r -> r = arr ++ [v] /\ Z.of_nat (length r) <= 2 ^ 32 - 1.
Proof.
  unfold push. destruct (Z.ltb_spec (Z.of_nat (length arr)) (2 ^ 32 - 1)); [|discriminate].
  intros H0. injection H0 as <-. split; [reflexivity|].
  rewrite length_app. simpl. lia.
Qed.

Lemma push_fits (arr : list A) (v : A) :
  Z.of_nat (length arr) < 2 ^ 32 - 1 -> push arr v = Ok (arr ++ [v]).
Proof.
  intros H. unfold push.
  destruct (Z.ltb_spec (Z.of_nat (length arr)) (2 ^ 32 - 1)); [reflexivity | lia].
Qed.

Lemma push_all_cons (arr xs : list A) (v : A) :
  push_all arr (v :: xs) = a <- push arr v ;; push_all a xs.
Proof. unfold push_all. apply (foldE_cons (fun v a => push a v)). Qed.

Lemma push_all_app (arr xs ys : list A) :
  push_all arr (xs ++ ys) = a <- push_all arr xs ;; push_all a ys.
Proof. unfold push_all. apply (foldE_app (fun v a => push a v)). Qed.

(** What was pushed is there, in order, and the array did not outgrow
    its limit. *)
Lemma push_all_ok (arr xs r : list A) :
  push_all arr xs = Ok r ->
  r = arr ++ xs /\ (xs = [] \/ Z.of_nat (length r) <= 2 ^ 32 - 1).
Proof.
  revert arr. induction xs as [|v xs IH]; intros arr H.
  - injection H as <-. split; [now rewrite app_nil_r | now left].
  - rewrite push_all_cons in H.
    destruct (push arr v) as [a|] eqn:Hpush; [|discriminate]. simpl in H.
    apply push_ok in Hpush. destruct Hpush as [-> Hlen].
    apply IH in H. destruct H as [-> Hr].
    split; [now rewrite <- app_assoc|]. right.
    destruct Hr as [-> | Hr]; [now rewrite app_nil_r | exact Hr].
Qed.

Lemma push_all_fits (arr xs : list A) :
  Z.of_nat (length arr + length xs) <= 2 ^ 32 - 1 ->
  push_all arr xs = Ok (arr ++ xs).
Proof.
  revert arr. induction xs as [|v xs IH]; intros arr H.
  - simpl. now rewrite app_nil_r.
  - simpl in H. rewrite push_all_cons, push_fits by lia. simpl.
    rewrite IH by (rewrite length_app; simpl; lia).
    now rewrite <- app_assoc.
Qed.

(** A loop whose body pushes the elements of [h i] is one long sequence of
    pushes. *)
Lemma foldE_push_all {I : Type} (h : I -> list A)
    (body : I -> list A -> result (list A)) (l : list I) (arr : list A) :
  (forall i a, body i a = push_all a (h i)) ->
  fold_left (fun acc i => a <- acc ;; body i a) l (Ok arr) =
  push_all arr (flat_map h l).
Proof.
  intros H. revert arr. induction l as [|i l IH]; intros arr; [reflexivity|].
  rewrite foldE_cons, H. simpl flat_map. rewrite push_all_app.
  destruct (push_all arr (h i)); simpl; [apply IH | reflexivity].
Qed.

(** A loop whose body, when it does not throw, pushes [f i]. *)
Lemma foldE_shadow {I : Type} (f : I -> A)
    (body : I -> list A -> result (list A)) (l : list I) (arr r : list A) :
  (forall i a b, body i a = Ok b -> b = a ++ [f i]) ->
  fold_left (fun acc i => a <- acc ;; body i a) l (Ok arr) = Ok r ->
  r = arr ++ map f l.
Proof.
  intros H. revert arr. induction l as [|i l IH]; intros arr Hr.
  - injection Hr as <-. now rewrite app_nil_r.
  - rewrite foldE_cons in Hr.
    destruct (body i arr) as [b|] eqn:Hb; [|discriminate]. simpl in Hr.
    apply H in Hb. subst b. apply IH in Hr. subst r.
    now rewrite <- app_assoc.
Qed.

Lemma foldE_total {I : Type} (f : I -> A)
    (body : I -> list A -> result (list A)) (l : list I) (arr : list A) :
  (forall i a, Z.of_nat (length a) < 2 ^ 32 - 1 -> body i a = Ok (a ++ [f i])) ->
  Z.of_nat (length arr + length l) <= 2 ^ 32 - 1 ->
  fold_left (fun acc i => a <- acc ;; body i a) l (Ok arr) = Ok (arr ++ map f l).
Proof.
  intros H. revert arr. induction l as [|i l IH]; intros arr Hlen.
  - simpl. now rewrite app_nil_r.
  - simpl in Hlen. rewrite foldE_cons, H by lia. simpl.
    rewrite IH by (rewrite length_app; simpl; lia).
    now rewrite <- app_assoc.
Qed.
End Pushing.
(** Powers of two are positive; used throughout. *)
Ltac pow2_pos k :=
  assert (0 < 2 ^ k) by (apply Z.pow_pos_nonneg; lia).

(** ** The 32-bit operators where nothing wraps *)

Lemma ToInt32_small (z : Z) :
  - 2 ^ 31 <= z < 2 ^ 31 -> Int32.ToInt32 z = z.
Proof.
  unfold Int32.ToInt32.
  change (2 ^ 32) with 4294967296. change (2 ^ 31) with 2147483648.
  intros Hz. cbv zeta.
  destruct (Z.ltb_spec (z mod 4294967296) 2147483648) as [H|H];
    Z.div_mod_to_equations; lia.
Qed.

Lemma pow2_le_30 (j : Z) : 0 <= j <= 30 -> 0 < 2 ^ j <= 2 ^ 30.
Proof.
  intros Hj. split.
  - apply Z.pow_pos_nonneg; lia.
  - apply Z.pow_le_mono_r; lia.
Qed.

Lemma shl_1_small (j : Z) : 0 <= j <= 30 -> Int32.shl 1 j = 2 ^ j.
Proof.
  intros Hj. unfold Int32.shl.
  rewrite (ToInt32_small 1) by (change (2 ^ 31) with 2147483648; lia).
  rewrite Z.mod_small by lia.
  rewrite Z.shiftl_1_l.
  apply ToInt32_small.
  pose proof (pow2_le_30 j Hj). change (2 ^ 30) with 1073741824 in *.
  change (2 ^ 31) with 2147483648. lia.
Qed.

Lemma land_1_testbit (a : Z) : Z.land a 1 = Z.b2z (Z.testbit a 0).
Proof.
  change 1 with (Z.ones 1). rewrite Z.land_ones by lia.
  change (2 ^ 1) with 2. rewrite Z.bit0_mod. reflexivity.
Qed.

Lemma coordinate_small (i j : Z) :
  0 <= i < 2 ^ 31 -> 0 <= j < 32 ->
  coordinate i j = if Z.testbit i j then 0.5%R else (-0.5)%R.
Proof.
  intros Hi Hj. unfold coordinate, Int32.and, Int32.sar.
  rewrite (ToInt32_small i) by lia.
  rewrite (ToInt32_small 1) by (change (2 ^ 31) with 2147483648; lia).
  rewrite Z.mod_small by lia.
  assert (Hs : 0 <= Z.shiftr i j <= i).
  { split; [apply Z.shiftr_nonneg; lia|].
    rewrite Z.shiftr_div_pow2 by lia.
    apply Z.div_le_upper_bound; [apply Z.pow_pos_nonneg; lia|].
    pow2_pos j. nia. }
  rewrite (ToInt32_small (Z.shiftr i j)) by lia.
  rewrite land_1_testbit, Z.shiftr_spec by lia. simpl (0 + j).
  rewrite ToInt32_small
    by (destruct (Z.testbit i j); simpl; change (2 ^ 31) with 2147483648; lia).
  destruct (Z.testbit i j); reflexivity.
Qed.

Lemma lxor_pow2_clear (i j : Z) :
  0 <= j -> Z.testbit i j = false -> Z.lxor i (2 ^ j) = i + 2 ^ j.
Proof.
  intros Hj Hb. symmetry. apply Z.add_nocarry_lxor.
  apply Z.bits_inj'. intros n Hn.
  rewrite Z.land_spec, Z.bits_0, Z.pow2_bits_eqb by lia.
  destruct (Z.eqb_spec j n) as [->|]; [now rewrite Hb | apply andb_false_r].
Qed.

Lemma lxor_pow2_set (i j : Z) :
  0 <= j -> Z.testbit i j = true -> Z.lxor i (2 ^ j) = i - 2 ^ j.
Proof.
  intros Hj Hb.
  assert (Hc : Z.testbit (Z.lxor i (2 ^ j)) j = false).
  { rewrite Z.lxor_spec, Hb, Z.pow2_bits_eqb, Z.eqb_refl by lia. reflexivity. }
  apply (lxor_pow2_clear _ _ Hj) in Hc.
  rewrite Z.lxor_assoc, Z.lxor_nilpotent, Z.lxor_0_r in Hc. lia.
Qed.

Lemma testbit_below (i d j : Z) :
  0 <= i < 2 ^ d -> d <= j -> Z.testbit i j = false.
Proof.
  intros Hi Hj.
  destruct (Z.eq_dec i 0) as [->|Hne]; [apply Z.bits_0|].
  apply Z.bits_above_log2; [lia|].
  assert (Z.log2 i < d); [|lia].
  assert (0 <= d).
  { destruct (Z.ltb_spec d 0); [|assumption].
    rewrite Z.pow_neg_r in Hi by assumption. lia. }
  apply Z.log2_lt_pow2; lia.
Qed.

(** The neighbour of [i] along bit [j], for indices of a cube of dimension
    at most 30. *)
Lemma neighbor_small (d i j : Z) :
  d <= 30 -> 0 <= i < 2 ^ d -> 0 <= j < d ->
  Int32.xor i (Int32.shl 1 j) = Z.lxor i (2 ^ j) /\
  0 <= Z.lxor i (2 ^ j) < 2 ^ d /\
  Z.lxor i (2 ^ j) = (if Z.testbit i j then i - 2 ^ j else i + 2 ^ j).
Proof.
  intros Hd Hi Hj.
  assert (Hpd : 0 < 2 ^ d <= 2 ^ 30) by (apply pow2_le_30; lia).
  assert (Hpj : 0 < 2 ^ j <= 2 ^ 30) by (apply pow2_le_30; lia).
  assert (Hval : Z.lxor i (2 ^ j) = (if Z.testbit i j then i - 2 ^ j else i + 2 ^ j)).
  { destruct (Z.testbit i j) eqn:Hb;
      [apply lxor_pow2_set | apply lxor_pow2_clear]; (lia || assumption). }
  assert (Hrange : 0 <= Z.lxor i (2 ^ j) < 2 ^ d).
  { split; [apply Z.lxor_nonneg; lia|].
    destruct (Z.eq_dec (Z.lxor i (2 ^ j)) 0) as [->|Hne]; [lia|].
    assert (0 < Z.lxor i (2 ^ j)) by (pose proof (proj2 (Z.lxor_nonneg i (2 ^ j))); lia).
    apply Z.log2_lt_pow2; [assumption|].
    eapply Z.le_lt_trans; [apply Z.log2_lxor; lia|].
    apply Z.max_lub_lt.
    - destruct (Z.eq_dec i 0) as [->|]; [simpl; lia|].
      apply Z.log2_lt_pow2; lia.
    - rewrite Z.log2_pow2; lia. }
  change (2 ^ 30) with 1073741824 in *.
  split; [|split; assumption].
  unfold Int32.xor. rewrite shl_1_small by lia.
  rewrite (ToInt32_small i), (ToInt32_small (2 ^ j))
    by (change (2 ^ 31) with 2147483648; lia).
  apply ToInt32_small. change (2 ^ 31) with 2147483648. lia.
Qed.

(** ** Counting *)

Section Counting.
Context {A B : Type}.

Lemma filter_all (p : A -> bool) (l : list A) :
  (forall a, In a l -> p a = true) -> filter p l = l.
Proof.
  induction l as [|a l IH]; intros H; simpl; [reflexivity|].
  rewrite (H a) by (left; reflexivity).
  f_equal. apply IH. intros b Hb. apply H. right; exact Hb.
Qed.

Lemma filter_none (p : A -> bool) (l : list A) :
  (forall a, In a l -> p a = false) -> filter p l = [].
Proof.
  induction l as [|a l IH]; intros H; simpl; [reflexivity|].
  rewrite (H a) by (left; reflexivity).
  apply IH. intros b Hb. apply H. right; exact Hb.
Qed.

Lemma filter_map_comm (f : A -> B) (p : B -> bool) (l : list A) :
  filter p (map f l) = map f (filter (fun a => p (f a)) l).
Proof.
  induction l as [|a l IH]; simpl; [reflexivity|].
  destruct (p (f a)); simpl; now rewrite IH.
Qed.

Lemma length_flat_map_guard (c : A -> bool) (g : A -> B) (l : list A) :
  length (flat_map (fun a => if c a then [g a] else []) l) = length (filter c l).
Proof.
  induction l as [|a l IH]; simpl; [reflexivity|].
  rewrite length_app, IH. destruct (c a); reflexivity.
Qed.

Lemma list_sum_map_add (f g : A -> nat) (l : list A) :
  list_sum (map (fun a => (f a + g a)%nat) l) =
  (list_sum (map f l) + list_sum (map g l))%nat.
Proof. induction l as [|a l IH]; simpl; [reflexivity | rewrite IH; lia]. Qed.

Lemma list_sum_map_indicator (p : A -> bool) (l : list A) :
  list_sum (map (fun a => if p a then 1%nat else 0%nat) l) = length (filter p l).
Proof.
  induction l as [|a l IH]; simpl; [reflexivity|].
  rewrite IH. destruct (p a); reflexivity.
Qed.

Lemma list_sum_map_const (n : nat) (l : list A) :
  list_sum (map (fun _ => n) l) = (length l * n)%nat.
Proof. induction l as [|a l IH]; simpl; [reflexivity | now rewrite IH]. Qed.

(** Counting the pairs a relation holds of, by rows or by columns. *)
Lemma count_swap (c : A -> B -> bool) (la : list A) (lb : list B) :
  list_sum (map (fun a => length (filter (c a) lb)) la) =
  list_sum (map (fun b => length (filter (fun a => c a b) la)) lb).
Proof.
  induction lb as [|b lb IH]; simpl.
  - induction la as [|a la IHa]; simpl; [reflexivity | exact IHa].
  - rewrite <- IH, <- list_sum_map_indicator, <- list_sum_map_add.
    f_equal. apply map_ext. intros a. destruct (c a b); reflexivity.
Qed.
End Counting.

Lemma range_app (a b : Z) :
  0 <= a -> 0 <= b -> range (a + b) = range a ++ map (fun i => a + i) (range b).
Proof.
  intros Ha Hb. unfold range.
  rewrite Z2Nat.inj_add, seq_app, map_app by lia. f_equal.
  rewrite map_map. simpl (0 + _)%nat.
  generalize (Z.to_nat b) as n. intros n.
  induction n as [|n IH]; [reflexivity|].
  rewrite !seq_S, !map_app, IH. simpl. f_equal. f_equal. lia.
Qed.

Lemma testbit_add_pow2 (d i m : Z) :
  0 <= d -> 0 <= i < 2 ^ d -> 0 <= m ->
  Z.testbit (2 ^ d + i) m = if m =? d then true else Z.testbit i m.
Proof.
  intros Hd Hi Hm.
  assert (Hc : Z.testbit i d = false) by (apply (testbit_below i d); lia).
  rewrite Z.add_comm, <- (lxor_pow2_clear i d Hd Hc).
  rewrite Z.lxor_spec, Z.pow2_bits_eqb by lia.
  destruct (Z.eqb_spec m d) as [->|Hne].
  - now rewrite Hc, Z.eqb_refl.
  - destruct (Z.eqb_spec d m); [lia|]. apply xorb_false_r.
Qed.

(** Half of the indices below [2^d] have a given bit below [d] clear. *)
Lemma clear_count (d : nat) (m : Z) :
  0 <= m < Z.of_nat d ->
  Z.of_nat (length (filter (fun i => negb (Z.testbit i m)) (range (2 ^ Z.of_nat d)))) =
  2 ^ (Z.of_nat d - 1).
Proof.
  revert m. induction d as [|d IH]; intros m Hm; [lia|].
  assert (Hp : 0 < 2 ^ Z.of_nat d) by (apply Z.pow_pos_nonneg; lia).
  replace (2 ^ Z.of_nat (S d)) with (2 ^ Z.of_nat d + 2 ^ Z.of_nat d)
    by (rewrite Nat2Z.inj_succ, Z.pow_succ_r; lia).
  replace (Z.of_nat (S d) - 1) with (Z.of_nat d) by lia.
  rewrite range_app, filter_app, length_app, filter_map_comm, length_map by lia.
  rewrite (filter_ext_in
    (fun i => negb (Z.testbit (2 ^ Z.of_nat d + i) m))
    (fun i => if m =? Z.of_nat d then false else negb (Z.testbit i m)))
    by (intros i Hi; apply in_range in Hi;
        rewrite testbit_add_pow2 by lia; now destruct (m =? Z.of_nat d)).
  destruct (Z.eqb_spec m (Z.of_nat d)) as [->|Hne].
  - rewrite filter_all, filter_none, length_range by
      (intros i Hi; apply in_range in Hi; try reflexivity;
       rewrite (testbit_below i (Z.of_nat d)) by lia; reflexivity).
    simpl. lia.
  - rewrite Nat2Z.inj_add, IH by lia.
    replace (Z.of_nat d) with (Z.succ (Z.of_nat d - 1)) at 3 by lia.
    rewrite Z.pow_succ_r by lia. lia.
Qed.

(** ** Edges of a cube of dimension at most 30 *)

Lemma one_bit_apart_lxor (i j : Z) :
  one_bit_apart i j <-> exists k, 0 <= k /\ Z.lxor i j = 2 ^ k.
Proof.
  split; intros [k [Hk H]]; exists k; (split; [exact Hk|]).
  - apply Z.bits_inj'. intros n Hn.
    rewrite Z.lxor_spec, Z.pow2_bits_eqb by lia.
    specialize (H n Hn).
    destruct (Z.eqb_spec k n) as [->|Hne].
    + destruct (Z.testbit i n), (Z.testbit j n); try reflexivity;
        exfalso; apply (proj2 H); auto.
    + destruct (Z.testbit i n), (Z.testbit j n); try reflexivity;
        exfalso; apply Hne; symmetry; apply H; discriminate.
  - intros n Hn.
    assert (Hb : xorb (Z.testbit i n) (Z.testbit j n) = (k =? n))
      by (rewrite <- Z.lxor_spec, H; apply Z.pow2_bits_eqb; lia).
    destruct (Z.eqb_spec k n) as [->|Hne];
      destruct (Z.testbit i n), (Z.testbit j n); simpl in Hb;
      try discriminate; split; intros; (congruence || lia).
Qed.

Lemma flat_map_pointwise {A B : Type} (f g : A -> list B) (l : list A) :
  (forall a, In a l -> f a = g a) -> flat_map f l = flat_map g l.
Proof.
  induction l as [|a l IH]; intros H; simpl; [reflexivity|].
  rewrite (H a) by (left; reflexivity). f_equal.
  apply IH. intros b Hb. apply H. right; exact Hb.
Qed.

Lemma flat_map_guard {A B : Type} (c : A -> bool) (g : A -> B) (l : list A) :
  flat_map (fun a => if c a then [g a] else []) l = map g (filter c l).
Proof.
  induction l as [|a l IH]; simpl; [reflexivity|].
  rewrite IH. destruct (c a); reflexivity.
Qed.

Lemma NoDup_flat_map {A B : Type} (f : A -> list B) (l : list A) :
  NoDup l ->
  (forall a, In a l -> NoDup (f a)) ->
  (forall a b v, In a l -> In b l -> In v (f a) -> In v (f b) -> a = b) ->
  NoDup (flat_map f l).
Proof.
  induction 1 as [|a l Hnotin Hnd IH]; intros Hf Hdisj; simpl; [constructor|].
  apply NoDup_app.
  - apply Hf. left; reflexivity.
  - apply IH.
    + intros b Hb. apply Hf. right; exact Hb.
    + intros b c v Hb Hc. apply Hdisj; right; assumption.
  - intros v Hv Hin. apply in_flat_map in Hin. destruct Hin as [b [Hb Hvb]].
    apply Hnotin. rewrite (Hdisj a b v); auto; [left; reflexivity | right; exact Hb].
Qed.

Lemma edgesFrom_small (d i : Z) :
  d <= 30 -> 0 <= i < 2 ^ d -> edgesFrom d i = upward d i.
Proof.
  intros Hd Hi. unfold edgesFrom, upward.
  rewrite <- flat_map_guard. apply flat_map_pointwise.
  intros j Hj. apply in_range in Hj. cbv zeta.
  destruct (neighbor_small d i j Hd Hi Hj) as [-> [_ ->]].
  pow2_pos j.
  destruct (Z.testbit i j); simpl.
  - destruct (Z.ltb_spec i (i - 2 ^ j)); [lia | reflexivity].
  - destruct (Z.ltb_spec i (i + 2 ^ j)); [reflexivity | lia].
Qed.

Lemma cubeEdges_small (d : Z) :
  1 <= d <= 30 ->
  cubeEdges d = flat_map (upward d) (range (2 ^ d)).
Proof.
  intros Hd. unfold cubeEdges. rewrite shl_1_small by lia.
  apply flat_map_pointwise. intros i Hi. apply in_range in Hi.
  apply edgesFrom_small; lia.
Qed.

Lemma cubeVertices_small (d : Z) :
  1 <= d <= 30 ->
  cubeVertices d = map (vertexAt d) (range (2 ^ d)).
Proof. intros Hd. unfold cubeVertices. now rewrite shl_1_small by lia. Qed.

Lemma in_upward (d i a b : Z) :
  In (a, b) (upward d i) <->
  a = i /\ exists j, 0 <= j < d /\ Z.testbit i j = false /\ b = i + 2 ^ j.
Proof.
  unfold upward. rewrite in_map_iff. split.
  - intros [j [Heq Hj]]. inversion Heq; subst.
    apply filter_In in Hj. destruct Hj as [Hj Hb]. apply in_range in Hj.
    split; [reflexivity|]. exists j. repeat split; try lia.
    now destruct (Z.testbit a j).
  - intros [-> [j [Hj [Hb ->]]]]. exists j. split; [reflexivity|].
    apply filter_In. split; [now apply in_range | now rewrite Hb].
Qed.

Lemma in_cubeEdges_small (d a b : Z) :
  1 <= d <= 30 ->
  In (a, b) (cubeEdges d) <->
  0 <= a < 2 ^ d /\ exists j, 0 <= j < d /\ Z.testbit a j = false /\ b = a + 2 ^ j.
Proof.
  intros Hd. rewrite cubeEdges_small, in_flat_map by assumption. split.
  - intros [i [Hi Hin]]. apply in_range in Hi. apply in_upward in Hin.
    destruct Hin as [-> Hj]. split; assumption.
  - intros [Ha Hj]. exists a. split; [now apply in_range|].
    apply in_upward. split; [reflexivity | assumption].
Qed.

Lemma NoDup_upward (d i : Z) : NoDup (upward d i).
Proof.
  unfold upward. apply Injective_map_NoDup_in.
  - intros j k Hj Hk Heq.
    apply filter_In in Hj, Hk. destruct Hj as [Hj _], Hk as [Hk _].
    apply in_range in Hj, Hk. inversion Heq as [Hpow].
    apply (Z.pow_inj_r 2); lia.
  - apply NoDup_filter, NoDup_range.
Qed.

Lemma NoDup_cubeEdges_small (d : Z) :
  1 <= d <= 30 -> NoDup (cubeEdges d).
Proof.
  intros Hd. rewrite cubeEdges_small by assumption.
  apply NoDup_flat_map.
  - apply NoDup_range.
  - intros i _. apply NoDup_upward.
  - intros i k [a b] _ _ Hi Hk.
    apply in_upward in Hi, Hk. destruct Hi as [Hi _], Hk as [Hk _]. congruence.
Qed.

(** One upward edge per clear bit: [d * 2^(d-1)] edges in all. *)
Lemma cubeEdges_length (d : Z) :
  1 <= d <= 30 -> Z.of_nat (length (cubeEdges d)) = d * 2 ^ (d - 1).
Proof.
  intros Hd. rewrite cubeEdges_small, length_flat_map by lia.
  rewrite (map_ext (fun i => length (upward d i))
             (fun i => length (filter (fun j => negb (Z.testbit i j)) (range d))))
    by (intros i; unfold upward; apply length_map).
  rewrite (count_swap (fun i j => negb (Z.testbit i j))).
  rewrite (map_ext_in _ (fun _ => Z.to_nat (2 ^ (d - 1)))).
  - rewrite list_sum_map_const, length_range, Nat2Z.inj_mul, !Z2Nat.id;
      [reflexivity | apply Z.pow_nonneg; lia | lia].
  - intros j Hj. apply in_range in Hj.
    rewrite <- (Z2Nat.id d) at 1 by lia.
    apply Nat2Z.inj. rewrite clear_count by lia.
    rewrite !Z2Nat.id; [reflexivity | apply Z.pow_nonneg; lia | lia].
Qed.

Lemma cubeVertices_length (d : Z) :
  1 <= d <= 30 -> Z.of_nat (length (cubeVertices d)) = 2 ^ d.
Proof.
  intros Hd. rewrite cubeVertices_small, length_map, length_range by lia.
  apply Z2Nat.id, Z.pow_nonneg. lia.
Qed.


(** ** The 32-bit operators where they wrap *)

Lemma shl_1_any (d : Z) :
  Int32.shl 1 d = if d mod 32 =? 31 then - 2 ^ 31 else 2 ^ (d mod 32).
Proof.
  assert (Hm : 0 <= d mod 32 < 32) by (apply Z.mod_pos_bound; lia).
  destruct (Z.eqb_spec (d mod 32) 31) as [He|Hne].
  - unfold Int32.shl. rewrite He. vm_compute. reflexivity.
  - rewrite <- (shl_1_small (d mod 32)) by lia.
    unfold Int32.shl. now rewrite Z.mod_mod by lia.
Qed.

Lemma shl_1_le (d : Z) : Int32.shl 1 d <= 2 ^ 30.
Proof.
  rewrite shl_1_any.
  assert (Hm : 0 <= d mod 32 < 32) by (apply Z.mod_pos_bound; lia).
  destruct (Z.eqb_spec (d mod 32) 31); [vm_compute; discriminate|].
  apply pow2_le_30. lia.
Qed.

Lemma lxor_pow2_bound (n i k : Z) :
  0 <= i < 2 ^ n -> 0 <= k < n -> 0 <= Z.lxor i (2 ^ k) < 2 ^ n.
Proof.
  intros Hi Hk. pow2_pos k.
  split; [apply Z.lxor_nonneg; lia|].
  destruct (Z.eq_dec (Z.lxor i (2 ^ k)) 0) as [->|Hne]; [lia|].
  assert (0 < Z.lxor i (2 ^ k)) by (pose proof (proj2 (Z.lxor_nonneg i (2 ^ k))); lia).
  apply Z.log2_lt_pow2; [assumption|].
  eapply Z.le_lt_trans; [apply Z.log2_lxor; lia|].
  apply Z.max_lub_lt.
  - destruct (Z.eq_dec i 0) as [->|]; [simpl; lia|].
    apply Z.log2_lt_pow2; lia.
  - rewrite Z.log2_pow2; lia.
Qed.

Lemma xor_pow2 (i k : Z) :
  0 <= i < 2 ^ 31 -> 0 <= k <= 30 -> Int32.xor i (2 ^ k) = Z.lxor i (2 ^ k).
Proof.
  intros Hi Hk.
  pose proof (pow2_le_30 k Hk) as Hp.
  pose proof (lxor_pow2_bound 31 i k Hi ltac:(lia)) as Hx.
  change (2 ^ 30) with 1073741824 in *. change (2 ^ 31) with 2147483648 in *.
  unfold Int32.xor.
  rewrite (ToInt32_small i), (ToInt32_small (2 ^ k))
    by (change (2 ^ 31) with 2147483648; lia).
  apply ToInt32_small. change (2 ^ 31) with 2147483648. lia.
Qed.

(** Bit 31 is the sign: flipping it in an index makes it negative. *)
Lemma xor_sign_bit (i : Z) :
  0 <= i < 2 ^ 31 -> Int32.xor i (- 2 ^ 31) = i - 2 ^ 31.
Proof.
  intros Hi.
  assert (Hx : Z.lxor i (- 2 ^ 31) = i - 2 ^ 31).
  { replace (i - 2 ^ 31) with (i + - 2 ^ 31) by lia.
    symmetry. apply Z.add_nocarry_lxor.
    apply Z.bits_inj'. intros n Hn. rewrite Z.land_spec, Z.bits_0.
    destruct (Z.ltb_spec n 31).
    - change (- 2 ^ 31) with (Z.shiftl (-1) 31).
      rewrite Z.shiftl_spec_low by lia. apply andb_false_r.
    - now rewrite (testbit_below i 31 n) by lia. }
  unfold Int32.xor.
  rewrite (ToInt32_small i) by lia.
  rewrite (ToInt32_small (- 2 ^ 31)) by lia.
  rewrite Hx. apply ToInt32_small. lia.
Qed.

Lemma in_edgesFrom (d i a b : Z) :
  In (a, b) (edgesFrom d i) -> a = i /\ a < b.
Proof.
  unfold edgesFrom. rewrite in_flat_map. intros [j [_ Hin]]. cbv zeta in Hin.
  destruct (Z.ltb_spec i (Int32.xor i (Int32.shl 1 j))) as [Hlt|Hge].
  - destruct Hin as [Heq|[]]. inversion Heq; subst. split; [reflexivity | exact Hlt].
  - destruct Hin.
Qed.

(** At any dimension, an edge leaving an index flips one of its bits 0
    to 30. *)
Lemma in_edgesFrom_bit (d i a b : Z) :
  0 <= i < 2 ^ 31 ->
  In (a, b) (edgesFrom d i) -> exists k, 0 <= k <= 30 /\ b = Z.lxor a (2 ^ k).
Proof.
  intros Hi. unfold edgesFrom. rewrite in_flat_map. intros [j [_ Hin]].
  cbv zeta in Hin. rewrite shl_1_any in Hin.
  assert (Hm : 0 <= j mod 32 < 32) by (apply Z.mod_pos_bound; lia).
  destruct (Z.eqb_spec (j mod 32) 31) as [He|Hne].
  - rewrite xor_sign_bit in Hin by assumption.
    destruct (Z.ltb_spec i (i - 2 ^ 31)) as [Hlt|_]; [|destruct Hin].
    change (2 ^ 31) with 2147483648 in Hlt. lia.
  - rewrite xor_pow2 in Hin by lia.
    destruct (i <? Z.lxor i (2 ^ (j mod 32))); [|destruct Hin].
    destruct Hin as [Heq|[]]. inversion Heq; subst.
    exists (j mod 32). split; [lia | reflexivity].
Qed.

Lemma in_cubeEdges (d a b : Z) :
  In (a, b) (cubeEdges d) ->
  0 <= a < Int32.shl 1 d /\ a < b /\
  exists k, 0 <= k <= 30 /\ b = Z.lxor a (2 ^ k).
Proof.
  unfold cubeEdges. rewrite in_flat_map. intros [i [Hi Hin]].
  apply in_range in Hi.
  pose proof (shl_1_le d) as Hle. change (2 ^ 30) with 1073741824 in Hle.
  destruct (in_edgesFrom d i a b Hin) as [-> Hlt].
  split; [exact Hi|]. split; [exact Hlt|].
  apply (in_edgesFrom_bit d i); [change (2 ^ 31) with 2147483648; lia | exact Hin].
Qed.

Lemma length_vertexAt (d i : Z) : length (vertexAt d i) = Z.to_nat d.
Proof. unfold vertexAt. now rewrite length_map, length_range. Qed.

Lemma length_cubeVertices (d : Z) :
  length (cubeVertices d) = Z.to_nat (Int32.shl 1 d).
Proof. unfold cubeVertices. now rewrite length_map, length_range. Qed.

(** ** The generator and its two arrays *)

Lemma point_loop (d i : Z) :
  for_loopE d (fun j point => push point (coordinate i j)) [] =
  push_all [] (vertexAt d i).
Proof.
  unfold for_loopE, vertexAt. rewrite <- flat_map_singleton.
  apply foldE_push_all. reflexivity.
Qed.

Lemma edges_loop (d n : Z) :
  for_loopE n (fun i edges =>
    for_loopE d (fun j edges0 =>
      if i <? Int32.xor i (Int32.shl 1 j)
      then push edges0 (i, Int32.xor i (Int32.shl 1 j))
      else Ok edges0) edges) [] =
  push_all [] (flat_map (edgesFrom d) (range n)).
Proof.
  unfold for_loopE. apply foldE_push_all. intros i a.
  unfold edgesFrom. cbv zeta. apply foldE_push_all. intros j b.
  destruct (i <? _); reflexivity.
Qed.

Lemma generate_below_one (d : Z) :
  d < 1 ->
  generateHypercube d =
  Ok (if d =? 0 then {| vertices := [[0%R]]; edges := [] |}
      else {| vertices := []; edges := [] |}).
Proof.
  intros Hd. unfold generateHypercube.
  destruct (Z.ltb_spec d 1); [|lia]. now destruct (d =? 0).
Qed.

(** When the generator returns, at a dimension [d >= 1], it returns the
    two arrays of [cube d], and the edges were few enough for an array. *)
Lemma generate_ok (d : Z) (h : Hypercube) :
  1 <= d -> generateHypercube d = Ok h ->
  h = cube d /\ Z.of_nat (length (cubeEdges d)) <= 2 ^ 32 - 1.
Proof.
  intros Hd. unfold generateHypercube.
  destruct (Z.ltb_spec d 1); [lia|]. cbv zeta. rewrite edges_loop.
  destruct (for_loopE (Int32.shl 1 d) _ []) as [vs|] eqn:Hv; [|discriminate].
  simpl. fold (cubeEdges d).
  destruct (push_all [] (cubeEdges d)) as [es|] eqn:He; [|discriminate].
  simpl. intros H0. injection H0 as <-.
  apply push_all_ok in He. destruct He as [-> Hlen].
  unfold for_loopE at 1 in Hv. apply (foldE_shadow (vertexAt d)) in Hv.
  - subst vs. split; [reflexivity|].
    destruct Hlen as [-> | Hlen]; [simpl; lia | exact Hlen].
  - intros i a b. cbv beta. rewrite point_loop.
    destruct (push_all [] (vertexAt d i)) as [p|] eqn:Hp; [|discriminate].
    simpl. apply push_all_ok in Hp. destruct Hp as [-> _].
    intros Hb. now apply push_ok in Hb.
Qed.

(** The generator returns as soon as the edges fit in an array. *)
Lemma generate_fits (d : Z) :
  1 <= d <= 2 ^ 32 - 1 ->
  Z.of_nat (length (cubeEdges d)) <= 2 ^ 32 - 1 ->
  generateHypercube d = Ok (cube d).
Proof.
  intros Hd Hlen. unfold generateHypercube.
  destruct (Z.ltb_spec d 1); [lia|]. cbv zeta. rewrite edges_loop.
  fold (cubeEdges d).
  pose proof (shl_1_le d) as Hle. change (2 ^ 30) with 1073741824 in Hle.
  change (2 ^ 32 - 1) with 4294967295 in Hd, Hlen.
  unfold for_loopE at 1. rewrite (foldE_total (vertexAt d)).
  - simpl. rewrite push_all_fits by (simpl; exact Hlen). reflexivity.
  - intros i a Ha. cbv beta. rewrite point_loop, push_all_fits
      by (rewrite length_vertexAt; simpl; change (2 ^ 32 - 1) with 4294967295; lia).
    simpl. now apply push_fits.
  - rewrite length_range. simpl. change (2 ^ 32 - 1) with 4294967295. lia.
Qed.

Lemma generate_small (d : Z) :
  1 <= d <= 28 -> generateHypercube d = Ok (cube d).
Proof.
  intros Hd. apply generate_fits; [change (2 ^ 32 - 1) with 4294967295; lia|].
  rewrite cubeEdges_length by lia.
  assert (H27 : 0 < 2 ^ (d - 1) <= 2 ^ 27).
  { split; [apply Z.pow_pos_nonneg; lia | apply Z.pow_le_mono_r; lia]. }
  change (2 ^ 27) with 134217728 in H27. change (2 ^ 32 - 1) with 4294967295. nia.
Qed.

(** ** Properties of the generator *)

(** C1, amended.  For every dimension [d] with [0 <= d <= 28],
    [generateHypercube d] returns, with exactly [2^d] vertices; in
    particular dimension 0 gives exactly one vertex.  (At 29 and 30 the
    edge array outgrows an array and the function throws; from 31 on,
    [1 << d] is no longer [2^d] in 32-bit arithmetic.) *)
Theorem vertex_count (d : Z) :
  0 <= d <= 28 ->
  exists h, generateHypercube d = Ok h /\
            Z.of_nat (length (vertices h)) = 2 ^ d.
Proof.
  intros Hd. destruct (Z.eq_dec d 0) as [->|Hnz].
  - eexists. split; reflexivity.
  - exists (cube d). split; [apply generate_small; lia|].
    apply cubeVertices_length. lia.
Qed.

Lemma vertex_count_witness :
  exists h, generateHypercube 3 = Ok h /\
            Z.of_nat (length (vertices h)) = 2 ^ 3.
Proof. apply (vertex_count 3). lia. Defined.

(** C1 as stated fails at dimension 31: [1 << 31] is negative, the loop
    over the vertices does not run, and no vertex is returned. *)
Lemma vertex_count_fails_at_31 :
  0 <= 31 /\
  generateHypercube 31 = Ok {| vertices := []; edges := [] |} /\
  ~ exists h, generateHypercube 31 = Ok h /\
              Z.of_nat (length (vertices h)) = 2 ^ 31.
Proof.
  assert (H : generateHypercube 31 = Ok {| vertices := []; edges := [] |})
    by (vm_compute; reflexivity).
  split; [lia|]. split; [exact H|].
  intros [h [Hh Hlen]]. rewrite H in Hh. injection Hh as <-.
  simpl in Hlen. lia.
Qed.

(** C2, amended.  For every dimension [d] with [1 <= d <= 28],
    [generateHypercube d] returns, with exactly [d * 2^(d-1)] edges, and
    dimension 0 gives no edge. *)
Theorem edge_count (d : Z) :
  0 <= d <= 28 ->
  exists h, generateHypercube d = Ok h /\
            Z.of_nat (length (edges h)) = if d =? 0 then 0 else d * 2 ^ (d - 1).
Proof.
  intros Hd. destruct (Z.eqb_spec d 0) as [->|Hnz].
  - eexists. split; reflexivity.
  - exists (cube d). split; [apply generate_small; lia|].
    apply cubeEdges_length. lia.
Qed.

Lemma edge_count_witness :
  exists h, generateHypercube 3 = Ok h /\
            Z.of_nat (length (edges h)) = if 3 =? 0 then 0 else 3 * 2 ^ (3 - 1).
Proof. apply (edge_count 3). lia. Defined.

(** C2 as stated fails at dimension 31: no edge is returned. *)
Lemma edge_count_fails_at_31 :
  1 <= 31 /\
  generateHypercube 31 = Ok {| vertices := []; edges := [] |} /\
  ~ exists h, generateHypercube 31 = Ok h /\
              Z.of_nat (length (edges h)) = 31 * 2 ^ (31 - 1).
Proof.
  assert (H : generateHypercube 31 = Ok {| vertices := []; edges := [] |})
    by (vm_compute; reflexivity).
  split; [lia|]. split; [exact H|].
  intros [h [Hh Hlen]]. rewrite H in Hh. injection Hh as <-.
  simpl in Hlen. lia.
Qed.

Lemma nth_vertex_small (d i : Z) :
  1 <= d <= 30 -> 0 <= i < 2 ^ d ->
  nth_error (cubeVertices d) (Z.to_nat i) = Some (vertexAt d i).
Proof.
  intros Hd Hi.
  rewrite cubeVertices_small, nth_error_map, nth_error_range by lia.
  simpl. now rewrite Z2Nat.id by lia.
Qed.

Lemma nth_coordinate_small (d i j : Z) :
  d <= 30 -> 0 <= i < 2 ^ d -> 0 <= j < d ->
  nth_error (vertexAt d i) (Z.to_nat j) =
  Some (if Z.testbit i j then 0.5%R else (-0.5)%R).
Proof.
  intros Hd Hi Hj.
  assert (Hp : 0 < 2 ^ d <= 2 ^ 30) by (apply pow2_le_30; lia).
  change (2 ^ 30) with 1073741824 in Hp.
  unfold vertexAt. rewrite nth_error_map, nth_error_range by lia. simpl.
  rewrite Z2Nat.id by lia. f_equal.
  apply coordinate_small; change (2 ^ 31) with 2147483648; lia.
Qed.

(** C3, amended.  For every dimension [d] with [1 <= d <= 28] and every
    index [i] with [0 <= i < 2^d], [generateHypercube d] returns and its
    [i]-th vertex is a list of exactly [d] coordinates whose [j]-th
    coordinate ([0 <= j < d]) is [0.5] if bit [j] of [i] is set and [-0.5]
    otherwise; so the vertex list is in binary index order. *)
Theorem vertex_coordinates (d i : Z) :
  1 <= d <= 28 -> 0 <= i < 2 ^ d ->
  exists (h : Hypercube) (p : PointND),
    generateHypercube d = Ok h /\
    nth_error (vertices h) (Z.to_nat i) = Some p /\
    Z.of_nat (length p) = d /\
    forall j, 0 <= j < d ->
      nth_error p (Z.to_nat j) =
      Some (if Z.testbit i j then 0.5%R else (-0.5)%R).
Proof.
  intros Hd Hi. exists (cube d), (vertexAt d i).
  split; [apply generate_small; lia|].
  split; [apply nth_vertex_small; lia|].
  split; [rewrite length_vertexAt; lia|].
  intros j Hj. apply nth_coordinate_small; lia.
Qed.

Lemma vertex_coordinates_witness :
  exists (h : Hypercube) (p : PointND),
    generateHypercube 3 = Ok h /\
    nth_error (vertices h) (Z.to_nat 5) = Some p /\
    Z.of_nat (length p) = 3 /\
    forall j, 0 <= j < 3 ->
      nth_error p (Z.to_nat j) =
      Some (if Z.testbit 5 j then 0.5%R else (-0.5)%R).
Proof. apply (vertex_coordinates 3 5); simpl; lia. Defined.

(** C3 as stated fails at dimension 31, index 0: there is no vertex at all. *)
Lemma vertex_coordinates_fails_at_31 :
  1 <= 31 /\ 0 <= 0 < 2 ^ 31 /\
  generateHypercube 31 = Ok {| vertices := []; edges := [] |} /\
  ~ exists (h : Hypercube) (p : PointND),
      generateHypercube 31 = Ok h /\
      nth_error (vertices h) (Z.to_nat 0) = Some p /\
      Z.of_nat (length p) = 31 /\
      forall j, 0 <= j < 31 ->
        nth_error p (Z.to_nat j) =
        Some (if Z.testbit 0 j then 0.5%R else (-0.5)%R).
Proof.
  assert (H : generateHypercube 31 = Ok {| vertices := []; edges := [] |})
    by (vm_compute; reflexivity).
  split; [lia|]. split; [lia|]. split; [exact H|].
  intros [h [p [Hh [Hp _]]]]. rewrite H in Hh. injection Hh as <-.
  discriminate Hp.
Qed.

(** Below dimension 31 every pair of indices one bit apart is an edge,
    once. *)
Lemma cubeEdges_once (d i j : Z) :
  1 <= d <= 30 ->
  0 <= i < 2 ^ d -> 0 <= j < 2 ^ d -> i < j -> one_bit_apart i j ->
  count_occ Edge_eq_dec (cubeEdges d) (i, j) = 1%nat /\
  count_occ Edge_eq_dec (cubeEdges d) (j, i) = 0%nat.
Proof.
  intros Hd Hi Hj Hlt Hone. split.
  - apply (proj1 (NoDup_count_occ' Edge_eq_dec _) (NoDup_cubeEdges_small d Hd)).
    apply in_cubeEdges_small; [assumption|]. split; [assumption|].
    apply one_bit_apart_lxor in Hone. destruct Hone as [k [Hk Hx]].
    assert (Hj' : j = Z.lxor i (2 ^ k))
      by (rewrite <- Hx, <- Z.lxor_assoc, Z.lxor_nilpotent, Z.lxor_0_l; reflexivity).
    pow2_pos k.
    destruct (Z.testbit i k) eqn:Hb.
    + rewrite lxor_pow2_set in Hj' by (lia || assumption). lia.
    + rewrite lxor_pow2_clear in Hj' by (lia || assumption).
      exists k. repeat split; try assumption.
      destruct (Z.ltb_spec k d) as [|Hge]; [assumption|]. exfalso.
      assert (Hjk : Z.testbit j k = true).
      { rewrite Hj', <- (lxor_pow2_clear i k) by (lia || assumption).
        rewrite Z.lxor_spec, Hb, Z.pow2_bits_eqb, Z.eqb_refl by lia.
        reflexivity. }
      rewrite (testbit_below j d k) in Hjk by lia. discriminate.
  - apply count_occ_not_In. intros Hin.
    apply in_cubeEdges_small in Hin; [|assumption].
    destruct Hin as [_ [k [Hk [_ Heq]]]].
    pow2_pos k. lia.
Qed.

(** C4, amended.  For every dimension [d >= 1], every edge [(i, j)] that
    [generateHypercube d] returns has [i < j] and [i] and [j] differ in
    exactly one bit.  For [1 <= d <= 28] the function returns, and every
    pair of vertex indices [i < j] below [2^d] that differ in exactly one
    bit appears exactly once in the edge list, as [(i, j)] and never as
    [(j, i)]. *)
Theorem edges_one_bit (d : Z) :
  1 <= d ->
  (forall h i j, generateHypercube d = Ok h -> In (i, j) (edges h) ->
     i < j /\ one_bit_apart i j) /\
  (d <= 28 ->
   exists h, generateHypercube d = Ok h /\
     forall i j, 0 <= i < 2 ^ d -> 0 <= j < 2 ^ d -> i < j -> one_bit_apart i j ->
       count_occ Edge_eq_dec (edges h) (i, j) = 1%nat /\
       count_occ Edge_eq_dec (edges h) (j, i) = 0%nat).
Proof.
  intros Hd. split.
  - intros h i j Hh Hin.
    apply generate_ok in Hh; [|assumption]. destruct Hh as [-> _].
    apply in_cubeEdges in Hin. destruct Hin as [_ [Hlt [k [Hk ->]]]].
    split; [exact Hlt|].
    apply one_bit_apart_lxor. exists k. split; [lia|].
    now rewrite <- Z.lxor_assoc, Z.lxor_nilpotent, Z.lxor_0_l.
  - intros Hd28. exists (cube d). split; [apply generate_small; lia|].
    intros i j. apply cubeEdges_once. lia.
Qed.

Lemma edges_one_bit_witness :
  (0 < 4 /\ one_bit_apart 0 4) /\
  (exists h, generateHypercube 3 = Ok h /\
     forall i j, 0 <= i < 2 ^ 3 -> 0 <= j < 2 ^ 3 -> i < j -> one_bit_apart i j ->
       count_occ Edge_eq_dec (edges h) (i, j) = 1%nat /\
       count_occ Edge_eq_dec (edges h) (j, i) = 0%nat).
Proof.
  destruct (edges_one_bit 3 ltac:(lia)) as [Ha Hb]. split.
  - apply (Ha (cube 3) 0 4); [vm_compute; reflexivity|].
    vm_compute. right; right; left; reflexivity.
  - apply Hb. lia.
Defined.

(** C4 as stated fails at dimension 33: the shift counts 0 and 32 are the
    same, two vertices are returned, and the pair [(0, 1)] of their indices,
    which differ in bit 0 only, is in the edge list twice. *)
Lemma edges_one_bit_fails_at_33 :
  1 <= 33 /\
  generateHypercube 33 = Ok (cube 33) /\
  length (vertices (cube 33)) = 2%nat /\
  0 <= 0 < 2 ^ 33 /\ 0 <= 1 < 2 ^ 33 /\ 0 < 1 /\ one_bit_apart 0 1 /\
  count_occ Edge_eq_dec (edges (cube 33)) (0, 1) = 2%nat.
Proof.
  assert (Hgen : generateHypercube 33 = Ok (cube 33)) by (vm_compute; reflexivity).
  assert (Hone : one_bit_apart 0 1)
    by (apply one_bit_apart_lxor; exists 0; split; [lia | reflexivity]).
  assert (Hocc : count_occ Edge_eq_dec (edges (cube 33)) (0, 1) = 2%nat)
    by (vm_compute; reflexivity).
  assert (Hlen : length (vertices (cube 33)) = 2%nat)
    by (vm_compute; reflexivity).
  split; [lia|]. split; [exact Hgen|]. split; [exact Hlen|].
  split; [lia|]. split; [lia|]. split; [lia|]. split; [exact Hone | exact Hocc].
Qed.

(** C8.  For every dimension [d < 0], [generateHypercube d] returns an empty
    vertex list and an empty edge list; nothing is thrown. *)
Theorem negative_dimension (d : Z) :
  d < 0 ->
  generateHypercube d = Ok {| vertices := []; edges := [] |}.
Proof.
  intros Hd. rewrite generate_below_one by lia.
  destruct (Z.eqb_spec d 0); [lia | reflexivity].
Qed.

Lemma negative_dimension_witness :
  generateHypercube (-1) = Ok {| vertices := []; edges := [] |}.
Proof. apply (negative_dimension (-1)). lia. Defined.

(** C9, amended.  At every dimension, the edge list [generateHypercube]
    returns contains no self-edge and the first index of every edge is a
    valid position into the returned vertex list; the second index is a
    valid position too for a dimension [d <= 31], and whenever
    [d mod 32 = 31], where no edge is returned. *)
Theorem edges_valid (d : Z) (h : Hypercube) (i j : Z) :
  generateHypercube d = Ok h ->
  In (i, j) (edges h) ->
  i <> j /\
  0 <= i < Z.of_nat (length (vertices h)) /\
  (d <= 31 \/ d mod 32 = 31 -> 0 <= j < Z.of_nat (length (vertices h))).
Proof.
  intros Hh Hin.
  destruct (Z.ltb_spec d 1) as [Hlt|Hge].
  - exfalso. rewrite generate_below_one in Hh by assumption.
    injection Hh as <-. destruct (d =? 0); exact Hin.
  - apply generate_ok in Hh; [|assumption]. destruct Hh as [-> _].
    cbn [edges vertices cube] in *. rewrite length_cubeVertices.
    pose proof (in_cubeEdges d i j Hin) as [Hi [Hlt _]].
    split; [lia|]. split; [lia|]. intros Hd31.
    destruct (Z.eq_dec (d mod 32) 31) as [He|Hne];
      [exfalso; rewrite shl_1_any, He in Hi; simpl in Hi; lia|].
    assert (Hd30 : 1 <= d <= 30)
      by (destruct Hd31 as [Hd31|Hd31]; [|contradiction];
          destruct (Z.eq_dec d 31) as [->|]; [exfalso; apply Hne; reflexivity | lia]).
    rewrite shl_1_small in Hi |- * by lia.
    apply in_cubeEdges_small in Hin; [|assumption].
    destruct Hin as [_ [k [Hk [Hb ->]]]].
    destruct (neighbor_small d i k ltac:(lia) Hi Hk) as [_ [Hr Hv]].
    rewrite Hb in Hv. rewrite Hv in Hr. lia.
Qed.

Lemma edges_valid_witness :
  0 <> 4 /\
  0 <= 0 < Z.of_nat (length (vertices (cube 3))) /\
  0 <= 4 < Z.of_nat (length (vertices (cube 3))).
Proof.
  assert (Hgen : generateHypercube 3 = Ok (cube 3)) by (vm_compute; reflexivity).
  assert (Hin : In (0, 4) (edges (cube 3)))
    by (vm_compute; right; right; left; reflexivity).
  destruct (edges_valid 3 (cube 3) 0 4 Hgen Hin) as [Hne [Hfst Hsnd]].
  split; [exact Hne|]. split; [exact Hfst|]. apply Hsnd. left. lia.
Defined.

(** C9 as stated fails at dimension 32: [1 << 32] is 1, a single vertex is
    returned, and the edge [(0, 1)] names a second one. *)
Lemma edges_valid_fails_at_32 :
  generateHypercube 32 = Ok (cube 32) /\
  In (0, 1) (edges (cube 32)) /\
  length (vertices (cube 32)) = 1%nat /\
  ~ (0 <= 1 < Z.of_nat (length (vertices (cube 32)))).
Proof.
  assert (Hv : length (vertices (cube 32)) = 1%nat)
    by (vm_compute; reflexivity).
  rewrite Hv. split; [vm_compute; reflexivity|].
  split; [|split; [reflexivity | simpl; lia]].
  vm_compute. left; reflexivity.
Qed.

(** ** Properties of the projector *)

Lemma range_succ (n : nat) :
  range (Z.of_nat (S n)) = range (Z.of_nat n) ++ [Z.of_nat n].
Proof.
  unfold range. rewrite !Nat2Z.id, seq_S, map_app. reflexivity.
Qed.

Lemma index_in_bounds (p : PointND) (k : nat) :
  (k < length p)%nat -> index p (Z.of_nat k) = Num (nth k p 0%R).
Proof.
  intros Hk. unfold index. rewrite Nat2Z.id.
  now rewrite (nth_error_nth' p 0%R Hk).
Qed.

(** The accumulation loop of lines 65 to 69, on a point long enough. *)
Lemma projection_loop (den : R) (p : PointND) (n : nat) :
  (n <= length p)%nat ->
  for_loop (Z.of_nat n) (fun k '(x, y) =>
      let angle := (PI * IZR k / den)%R in
      (nadd x (nmul (index p k) (Num (cos angle))),
       nadd y (nmul (index p k) (Num (sin angle)))))
    (Num 0, Num 0) =
  (Num (Rsum n (fun k => nth k p 0%R * cos (PI * INR k / den)))%R,
   Num (Rsum n (fun k => nth k p 0%R * sin (PI * INR k / den)))%R).
Proof.
  unfold for_loop. induction n as [|n IH]; intros Hn; [reflexivity|].
  rewrite range_succ, fold_left_app, IH by lia. simpl.
  rewrite index_in_bounds by lia. simpl.
  now rewrite <- INR_IZR_INZ.
Qed.

Lemma projectPoint_spec (d : Z) (s : R) (p : PointND) :
  0 <= d -> length p = Z.to_nat d ->
  projectPoint d s p = specPoint d s p.
Proof.
  intros Hd Hlen. unfold projectPoint, specPoint.
  rewrite <- (Z2Nat.id d) at 1 by assumption.
  rewrite projection_loop by lia. simpl.
  f_equal; f_equal; apply Rmult_comm.
Qed.

Lemma generated_vertex_length (d : Z) (p : PointND) :
  In p (cubeVertices d) -> length p = Z.to_nat d.
Proof.
  unfold cubeVertices. rewrite in_map_iff.
  intros [i [<- _]]. apply length_vertexAt.
Qed.

(** C5.  For every dimension [d >= 3] and every size [s], the projection
    of the vertex list [generateHypercube d] returns is, vertex by vertex
    and in the same order, the point
    [(S * sum_k p_k * cos (pi*k/(d-1.5)), S * sum_k p_k * sin (pi*k/(d-1.5)))]
    with [k] from 0 to [d-1] and [S = s * 2.2 / (d - 1)]; numbers are read as
    real numbers. *)
Theorem generic_projection (d : Z) (s : R) (h : Hypercube) :
  3 <= d -> generateHypercube d = Ok h ->
  projectedVertices (vertices h) d s = map (specPoint d s) (vertices h).
Proof.
  intros Hd Hh. apply generate_ok in Hh; [|lia]. destruct Hh as [-> _].
  cbn [vertices cube]. unfold projectedVertices.
  destruct (Z.eqb_spec d 0); [lia|].
  destruct (Z.eqb_spec d 1); [lia|].
  destruct (Z.eqb_spec d 2); [lia|].
  apply map_ext_in. intros p Hp.
  apply projectPoint_spec; [lia|].
  apply generated_vertex_length. exact Hp.
Qed.

Lemma generic_projection_witness :
  projectedVertices (vertices (cube 3)) 3 100 =
  map (specPoint 3 100) (vertices (cube 3)).
Proof.
  apply (generic_projection 3 100 (cube 3)); [lia | vm_compute; reflexivity].
Defined.

(** C6.  At low dimensions the projection returns fixed points: the single
    point [(0, 0)] for dimension 0; [(-50, 0), (50, 0)] for dimension 1 and
    size 100; [(-50,-50), (50,-50), (-50,50), (50,50)], in that order, for
    dimension 2 and size 100. *)
Theorem low_dimension_projection (vs : list PointND) (s : R) :
  projectedVertices vs 0 s = [ {| x := Num 0; y := Num 0 |} ] /\
  projectedVertices vs 1 100 =
    [ {| x := Num (-50); y := Num 0 |}; {| x := Num 50; y := Num 0 |} ] /\
  projectedVertices vs 2 100 =
    [ {| x := Num (-50); y := Num (-50) |}; {| x := Num 50; y := Num (-50) |};
      {| x := Num (-50); y := Num 50 |};    {| x := Num 50; y := Num 50 |} ].
Proof.
  unfold projectedVertices. cbn [Z.eqb Pos.eqb].
  repeat split; repeat f_equal; lra.
Qed.

(** C7, amended.  For every vertex list, every size and every dimension
    other than 0, 1 and 2, the projection has exactly as many points as
    there are input vertices, so an empty vertex list gives an empty point
    list; for dimension 0, 1 or 2 this holds when the input is the vertex
    list [generateHypercube] returns for that dimension. *)
Theorem projection_length (vs : list PointND) (d : Z) (s : R) :
  (d < 0 \/ 2 < d) \/
  (exists h, generateHypercube d = Ok h /\ vs = vertices h) ->
  length (projectedVertices vs d s) = length vs /\
  (vs = [] -> projectedVertices vs d s = []).
Proof.
  intros H.
  assert (Hlen : length (projectedVertices vs d s) = length vs).
  { unfold projectedVertices.
    destruct (Z.eqb_spec d 0) as [->|H0];
      [destruct H as [H | [h [Hh ->]]]; [lia|];
       rewrite generate_below_one in Hh by lia; injection Hh as <-; reflexivity|].
    destruct (Z.eqb_spec d 1) as [->|H1];
      [destruct H as [H | [h [Hh ->]]]; [lia|];
       rewrite generate_small in Hh by lia; injection Hh as <-;
       vm_compute; reflexivity|].
    destruct (Z.eqb_spec d 2) as [->|H2];
      [destruct H as [H | [h [Hh ->]]]; [lia|];
       rewrite generate_small in Hh by lia; injection Hh as <-;
       vm_compute; reflexivity|].
    apply length_map. }
  split; [exact Hlen|].
  intros ->. apply length_zero_iff_nil. exact Hlen.
Qed.

Lemma projection_length_witness :
  length (projectedVertices [] 5 100) = length (@nil PointND) /\
  (@nil PointND = [] -> projectedVertices [] 5 100 = []).
Proof. apply (projection_length [] 5 100). left. right. lia. Defined.

(** C7 as stated fails on the empty vertex list at dimension 0: the output
    is the fixed point [(0, 0)], one point for no vertex. *)
Lemma projection_length_fails_at_0 :
  length (projectedVertices [] 0 100) = 1%nat /\
  length (projectedVertices [] 0 100) <> length (@nil PointND) /\
  projectedVertices [] 0 100 <> [].
Proof.
  unfold projectedVertices. simpl. repeat split; discriminate.
Qed.

(** C10.  For dimension 0, 1 or 2 the projection does not depend on the
    input vertex list: any two vertex lists, the empty one included, give
    the same output for the same dimension and size. *)
Theorem low_dimension_independent (vs1 vs2 : list PointND) (d : Z) (s : R) :
  d = 0 \/ d = 1 \/ d = 2 ->
  projectedVertices vs1 d s = projectedVertices vs2 d s.
Proof. intros [-> | [-> | ->]]; reflexivity. Qed.

Lemma low_dimension_independent_witness :
  projectedVertices [] 1 100 = projectedVertices [[0.5%R]; [(-0.5)%R]] 1 100.
Proof. apply (low_dimension_independent [] [[0.5%R]; [(-0.5)%R]] 1 100). right; left; reflexivity. Defined.


(** ** More on the generator *)

(** At dimensions 29 and 30 the generator throws: the edge array would
    need [d * 2^(d-1)] elements, more than the [2^32 - 1] an array holds. *)
Theorem generate_throws (d : Z) :
  29 <= d <= 30 -> generateHypercube d = RangeError.
Proof.
  intros Hd. destruct (generateHypercube d) as [h|] eqn:Hh; [|reflexivity].
  exfalso. apply generate_ok in Hh; [|lia]. destruct Hh as [_ Hlen].
  rewrite cubeEdges_length in Hlen by lia.
  assert (H28 : 2 ^ 28 <= 2 ^ (d - 1)) by (apply Z.pow_le_mono_r; lia).
  change (2 ^ 28) with 268435456 in H28.
  change (2 ^ 32 - 1) with 4294967295 in Hlen. nia.
Qed.

Lemma generate_throws_witness : generateHypercube 29 = RangeError.
Proof. apply (generate_throws 29). lia. Defined.

(** At every dimension, wrapped shifts included, an edge that is returned
    goes from a valid vertex position to a strictly larger index; so there
    is never a self-edge and never an edge listed in both directions. *)
Theorem edges_ascending (d : Z) (h : Hypercube) (i j : Z) :
  generateHypercube d = Ok h ->
  In (i, j) (edges h) ->
  i < j /\
  0 <= i < Z.of_nat (length (vertices h)) /\
  ~ In (j, i) (edges h).
Proof.
  intros Hh.
  assert (Hasc : forall a b, In (a, b) (edges h) ->
            a < b /\ 0 <= a < Z.of_nat (length (vertices h))).
  { intros a b Hin. destruct (Z.ltb_spec d 1) as [Hlt|Hge].
    - exfalso. rewrite generate_below_one in Hh by assumption.
      injection Hh as <-. destruct (d =? 0); exact Hin.
    - apply generate_ok in Hh; [|assumption]. destruct Hh as [-> _].
      cbn [edges vertices cube] in *. rewrite length_cubeVertices.
      apply in_cubeEdges in Hin. destruct Hin as [Ha [Hlt _]].
      split; [exact Hlt | lia]. }
  intros Hin. destruct (Hasc i j Hin) as [Hlt Hi].
  split; [exact Hlt|]. split; [exact Hi|].
  intros Hrev. apply Hasc in Hrev. lia.
Qed.

Lemma edges_ascending_witness :
  0 < 4 /\
  0 <= 0 < Z.of_nat (length (vertices (cube 3))) /\
  ~ In (4, 0) (edges (cube 3)).
Proof.
  apply (edges_ascending 3 (cube 3) 0 4); [vm_compute; reflexivity|].
  vm_compute. right; right; left; reflexivity.
Defined.

Lemma generated_vertex_coords (d : Z) (p : PointND) :
  In p (cubeVertices d) ->
  Forall (fun c => c = 0.5%R \/ c = (-0.5)%R) p.
Proof.
  unfold cubeVertices. rewrite in_map_iff. intros [i [<- _]].
  unfold vertexAt. apply Forall_forall. intros c Hc.
  apply in_map_iff in Hc. destruct Hc as [j [<- _]].
  unfold coordinate. destruct (_ =? 0); [right | left]; reflexivity.
Qed.

(** At every dimension [d >= 1], every vertex that is returned has exactly
    [d] coordinates and each of them is [0.5] or [-0.5]. *)
Theorem vertex_shape (d : Z) (h : Hypercube) (p : PointND) :
  1 <= d -> generateHypercube d = Ok h -> In p (vertices h) ->
  Z.of_nat (length p) = d /\
  Forall (fun c => c = 0.5%R \/ c = (-0.5)%R) p.
Proof.
  intros Hd Hh Hin. apply generate_ok in Hh; [|assumption].
  destruct Hh as [-> _]. cbn [vertices cube] in Hin. split.
  - rewrite (generated_vertex_length d p Hin). lia.
  - now apply (generated_vertex_coords d).
Qed.

Lemma vertex_shape_witness :
  Z.of_nat (length (vertexAt 3 5)) = 3 /\
  Forall (fun c => c = 0.5%R \/ c = (-0.5)%R) (vertexAt 3 5).
Proof.
  apply (vertex_shape 3 (cube 3) (vertexAt 3 5));
    [lia | vm_compute; reflexivity|].
  apply in_map. apply in_range.
  vm_compute. split; [discriminate | reflexivity].
Defined.

(** When the generator returns at a dimension [d >= 1], the number of
    vertices is [2^(d mod 32)], the shift count being [d mod 32], and it is
    0 when [d mod 32 = 31], where the shift gives a negative number. *)
Theorem vertex_count_wrapped (d : Z) (h : Hypercube) :
  1 <= d -> generateHypercube d = Ok h ->
  Z.of_nat (length (vertices h)) =
  if d mod 32 =? 31 then 0 else 2 ^ (d mod 32).
Proof.
  intros Hd Hh. apply generate_ok in Hh; [|assumption].
  destruct Hh as [-> _]. cbn [vertices cube].
  rewrite length_cubeVertices, shl_1_any.
  destruct (d mod 32 =? 31); [reflexivity|].
  apply Z2Nat.id. apply Z.pow_nonneg. lia.
Qed.

Lemma vertex_count_wrapped_witness :
  Z.of_nat (length (vertices (cube 34))) =
  if 34 mod 32 =? 31 then 0 else 2 ^ (34 mod 32).
Proof.
  apply (vertex_count_wrapped 34 (cube 34)); [lia | vm_compute; reflexivity].
Defined.

Lemma half_neq : (0.5 <> -0.5)%R.
Proof. lra. Qed.

Lemma vertexAt_inj (d i k : Z) :
  d <= 30 -> 0 <= i < 2 ^ d -> 0 <= k < 2 ^ d ->
  vertexAt d i = vertexAt d k -> i = k.
Proof.
  intros Hd Hi Hk Heq. apply Z.bits_inj'. intros n Hn.
  destruct (Z.ltb_spec n d) as [Hlt|Hge].
  - pose proof (nth_coordinate_small d i n Hd Hi (conj Hn Hlt)) as H1.
    pose proof (nth_coordinate_small d k n Hd Hk (conj Hn Hlt)) as H2.
    rewrite Heq, H2 in H1. inversion H1 as [H].
    destruct (Z.testbit i n), (Z.testbit k n); try reflexivity; exfalso; lra.
  - now rewrite (testbit_below i d n), (testbit_below k d n) by lia.
Qed.

(** For [0 <= d <= 30] the vertices that are returned are pairwise
    distinct. *)
Theorem vertices_distinct (d : Z) (h : Hypercube) :
  0 <= d <= 30 -> generateHypercube d = Ok h -> NoDup (vertices h).
Proof.
  intros Hd Hh. destruct (Z.eq_dec d 0) as [->|Hnz].
  - injection Hh as <-. simpl. constructor; [intros [] | constructor].
  - apply generate_ok in Hh; [|lia]. destruct Hh as [-> _].
    cbn [vertices cube]. rewrite cubeVertices_small by lia.
    apply Injective_map_NoDup_in.
    + intros i k Hi Hk. apply in_range in Hi, Hk. apply vertexAt_inj; lia.
    + apply NoDup_range.
Qed.

Lemma vertices_distinct_witness : NoDup (vertices (cube 3)).
Proof.
  apply (vertices_distinct 3 (cube 3)); [lia | vm_compute; reflexivity].
Defined.

(** For [1 <= d <= 30], the two vertices an edge that is returned joins
    differ in exactly one of their [d] coordinates. *)
Theorem edge_flips_one_coordinate (d : Z) (h : Hypercube) (i j : Z) :
  1 <= d <= 30 ->
  generateHypercube d = Ok h ->
  In (i, j) (edges h) ->
  exists (p q : PointND) (k : Z),
    at_index (vertices h) i = Some p /\
    at_index (vertices h) j = Some q /\
    0 <= k < d /\
    forall n, 0 <= n < d -> (at_index p n <> at_index q n <-> n = k).
Proof.
  intros Hd Hh Hin. apply generate_ok in Hh; [|lia]. destruct Hh as [-> _].
  cbn [edges vertices cube] in *.
  apply in_cubeEdges_small in Hin; [|assumption].
  destruct Hin as [Hi [k [Hk [Hb ->]]]].
  assert (Hd30 : d <= 30) by lia.
  destruct (neighbor_small d i k Hd30 Hi Hk) as [_ [Hr Hv]].
  rewrite Hb in Hv. rewrite Hv in Hr. pow2_pos k.
  exists (vertexAt d i), (vertexAt d (i + 2 ^ k)), k.
  unfold at_index.
  destruct (Z.ltb_spec i 0); [lia|]. destruct (Z.ltb_spec (i + 2 ^ k) 0); [lia|].
  rewrite !nth_vertex_small by lia.
  split; [reflexivity|]. split; [reflexivity|]. split; [lia|].
  intros n Hn. destruct (Z.ltb_spec n 0); [lia|].
  rewrite !nth_coordinate_small by lia.
  rewrite <- Hv, Z.lxor_spec, Z.pow2_bits_eqb by lia.
  destruct (Z.eqb_spec k n) as [->|Hne].
  - rewrite Hb. simpl. split; [reflexivity|]. intros _ Heq. inversion Heq. lra.
  - rewrite xorb_false_r. split; [intros Hc; exfalso; apply Hc; reflexivity | lia].
Qed.

Lemma edge_flips_one_coordinate_witness :
  exists (p q : PointND) (k : Z),
    at_index (vertices (cube 3)) 1 = Some p /\
    at_index (vertices (cube 3)) 5 = Some q /\
    0 <= k < 3 /\
    forall n, 0 <= n < 3 -> (at_index p n <> at_index q n <-> n = k).
Proof.
  apply (edge_flips_one_coordinate 3 (cube 3) 1 5);
    [lia | vm_compute; reflexivity|].
  vm_compute. do 4 right. left. reflexivity.
Defined.

Lemma filter_flat_map {A B : Type} (p : B -> bool) (f : A -> list B) (l : list A) :
  filter p (flat_map f l) = flat_map (fun a => filter p (f a)) l.
Proof.
  induction l as [|a l IH]; simpl; [reflexivity|].
  now rewrite filter_app, IH.
Qed.

Lemma filter_twice {A : Type} (p q : A -> bool) (l : list A) :
  filter p (filter q l) = filter (fun a => q a && p a) l.
Proof.
  induction l as [|a l IH]; simpl; [reflexivity|].
  destruct (q a); simpl; [destruct (p a)|]; now rewrite IH.
Qed.

Lemma count_one (w : Z) (l : list Z) :
  NoDup l -> In w l -> length (filter (fun i => i =? w) l) = 1%nat.
Proof.
  induction 1 as [|a l Hnotin Hnd IH]; intros Hin; [destruct Hin|]. simpl.
  destruct (Z.eqb_spec a w) as [->|Hne].
  - rewrite filter_none; [reflexivity|].
    intros b Hb. destruct (Z.eqb_spec b w); [congruence | reflexivity].
  - apply IH. destruct Hin; [contradiction | assumption].
Qed.

Lemma testbit_add_own_pow2 (i j : Z) :
  0 <= j -> Z.testbit i j = false -> Z.testbit (i + 2 ^ j) j = true.
Proof.
  intros Hj Hb. rewrite <- lxor_pow2_clear by assumption.
  now rewrite Z.lxor_spec, Hb, Z.pow2_bits_eqb, Z.eqb_refl by lia.
Qed.

Lemma testbit_sub_own_pow2 (i j : Z) :
  0 <= j -> Z.testbit i j = true -> Z.testbit (i - 2 ^ j) j = false.
Proof.
  intros Hj Hb. rewrite <- lxor_pow2_set by assumption.
  now rewrite Z.lxor_spec, Hb, Z.pow2_bits_eqb, Z.eqb_refl by lia.
Qed.

(** Along bit [j], exactly one index [i] has an upward edge that touches
    [v]: [v] itself when its bit [j] is clear, [v - 2^j] otherwise. *)
Lemma touching_along_bit (v i j : Z) :
  0 <= j ->
  negb (Z.testbit i j) && incident v (i, i + 2 ^ j) =
  (i =? (if Z.testbit v j then v - 2 ^ j else v)).
Proof.
  intros Hj. unfold incident. simpl. pow2_pos j.
  destruct (Z.testbit v j) eqn:Hv.
  - destruct (Z.eqb_spec i (v - 2 ^ j)) as [->|Hne].
    + rewrite testbit_sub_own_pow2 by assumption. simpl.
      replace (v - 2 ^ j + 2 ^ j) with v by lia.
      rewrite Z.eqb_refl. apply orb_true_r.
    + destruct (Z.testbit i j) eqn:Hi; [reflexivity|]. simpl.
      destruct (Z.eqb_spec i v) as [->|]; [congruence|].
      destruct (Z.eqb_spec (i + 2 ^ j) v); [lia | reflexivity].
  - destruct (Z.eqb_spec i v) as [->|Hne].
    + now rewrite Hv.
    + destruct (Z.testbit i j) eqn:Hi; [reflexivity|]. simpl.
      destruct (Z.eqb_spec (i + 2 ^ j) v) as [<-|]; [|reflexivity].
      rewrite testbit_add_own_pow2 in Hv by assumption. discriminate.
Qed.

Lemma cubeEdges_degree (d v : Z) :
  1 <= d <= 30 -> 0 <= v < 2 ^ d ->
  Z.of_nat (length (filter (incident v) (cubeEdges d))) = d.
Proof.
  intros Hd Hv.
  rewrite cubeEdges_small, filter_flat_map, length_flat_map by assumption.
  rewrite (map_ext _
    (fun i => length (filter (fun j => negb (Z.testbit i j) &&
                                       incident v (i, i + 2 ^ j)) (range d))))
    by (intros i; unfold upward;
        now rewrite filter_map_comm, length_map, filter_twice).
  rewrite (count_swap (fun i j => negb (Z.testbit i j) && incident v (i, i + 2 ^ j))).
  rewrite (map_ext_in _ (fun _ => 1%nat)).
  - rewrite list_sum_map_const, length_range. lia.
  - intros j Hj. apply in_range in Hj.
    rewrite (filter_ext _ _ (fun i => touching_along_bit v i j (proj1 Hj))).
    apply count_one; [apply NoDup_range|]. apply in_range.
    assert (Hd30 : d <= 30) by lia.
    destruct (neighbor_small d v j Hd30 Hv Hj) as [_ [Hr Hx]].
    destruct (Z.testbit v j); [rewrite Hx in Hr; exact Hr | exact Hv].
Qed.

(** For [1 <= d <= 28] the generator returns, and every vertex of the
    cube it returns is an end of exactly [d] edges. *)
Theorem vertex_degree (d v : Z) :
  1 <= d <= 28 -> 0 <= v < 2 ^ d ->
  exists h, generateHypercube d = Ok h /\
            Z.of_nat (length (filter (incident v) (edges h))) = d.
Proof.
  intros Hd Hv. exists (cube d). split; [now apply generate_small|].
  apply cubeEdges_degree; lia.
Qed.

Lemma vertex_degree_witness :
  exists h, generateHypercube 3 = Ok h /\
            Z.of_nat (length (filter (incident 5) (edges h))) = 3.
Proof. apply (vertex_degree 3 5); simpl; lia. Defined.

(** ** More on the projector *)

Lemma range_uncons (n : Z) :
  1 <= n -> range n = 0 :: map (fun i => 1 + i) (range (n - 1)).
Proof.
  intros Hn. replace n with (1 + (n - 1)) at 1 by lia.
  now rewrite range_app by lia.
Qed.

Lemma index_out_of_bounds (p : PointND) (k : Z) :
  Z.of_nat (length p) <= k -> index p k = NaN.
Proof.
  intros Hk. unfold index.
  now rewrite (proj2 (nth_error_None p (Z.to_nat k))) by lia.
Qed.

(** Once both sums are [NaN], they stay so. *)
Lemma projection_loop_NaN (den : R) (p : PointND) (l : list Z) :
  fold_left (fun acc k => (fun '(x, y) =>
      let angle := (PI * IZR k / den)%R in
      (nadd x (nmul (index p k) (Num (cos angle))),
       nadd y (nmul (index p k) (Num (sin angle))))) acc) l (NaN, NaN) =
  (NaN, NaN).
Proof. induction l as [|k l IH]; [reflexivity | exact IH]. Qed.

(** A point with fewer coordinates than the dimension projects to
    [(NaN, NaN)], whatever the size: the loop reads [point[k]] for every
    [k] below the dimension. *)
Theorem short_point_projects_to_NaN (d : Z) (s : R) (p : PointND) :
  Z.of_nat (length p) < d ->
  projectPoint d s p = {| x := NaN; y := NaN |}.
Proof.
  intros Hlt. unfold projectPoint.
  replace d with (Z.of_nat (length p) + (d - Z.of_nat (length p))) at 1 by lia.
  unfold for_loop.
  rewrite range_app, fold_left_app by lia.
  pose proof (projection_loop (IZR d - 1.5) p (length p) (le_n _)) as Hloop.
  unfold for_loop in Hloop. rewrite Hloop.
  rewrite (range_uncons (d - Z.of_nat (length p))) by lia. simpl map.
  cbn [fold_left].
  rewrite index_out_of_bounds by lia. simpl nmul. simpl nadd.
  now rewrite projection_loop_NaN.
Qed.

Lemma short_point_projects_to_NaN_witness :
  projectPoint 3 100 [0%R] = {| x := NaN; y := NaN |}.
Proof. apply (short_point_projects_to_NaN 3 100 [0%R]). simpl. lia. Defined.

(** Equations between lists of points, down to their real coordinates. *)
Ltac point_eq :=
  repeat match goal with
         | |- _ :: _ = _ :: _ => f_equal
         | |- mkPoint2D _ _ = mkPoint2D _ _ => f_equal
         | |- Some _ = Some _ => f_equal
         | |- Num _ = Num _ => f_equal
         end;
  try reflexivity; unfold Rdiv; ring.

(** The projection is homogeneous in the size: multiplying the size by [c]
    multiplies every projected point by [c], at every dimension. *)
Theorem projection_scales (vs : list PointND) (d : Z) (s c : R) :
  projectedVertices vs d (c * s) = map (scalePoint c) (projectedVertices vs d s).
Proof.
  unfold projectedVertices.
  destruct (d =? 0); [|destruct (d =? 1); [|destruct (d =? 2)]].
  - unfold scalePoint. simpl. point_eq.
  - unfold scalePoint. simpl. point_eq.
  - unfold scalePoint. simpl. point_eq.
  - rewrite map_map. apply map_ext. intros p.
    unfold projectPoint, scalePoint.
    destruct (for_loop d _ (Num 0, Num 0)) as [[|a] [|b]]; simpl; point_eq.
Qed.

Lemma testbit_complement (d i j : Z) :
  0 <= i < 2 ^ d -> 0 <= j < d ->
  Z.testbit (2 ^ d - 1 - i) j = negb (Z.testbit i j).
Proof.
  intros Hi Hj.
  replace (2 ^ d - 1 - i) with (Z.ones d - i) by (rewrite Z.ones_equiv; lia).
  rewrite Z.sub_nocarry_ldiff.
  - now rewrite Z.ldiff_spec, Z.ones_spec_low by lia.
  - apply Z.bits_inj'. intros n Hn. rewrite Z.ldiff_spec, Z.bits_0.
    destruct (Z.ltb_spec n d).
    + rewrite Z.ones_spec_low by lia. apply andb_false_r.
    + now rewrite (testbit_below i d n) by lia.
Qed.

Lemma Rsum_opp (n : nat) (f g : nat -> R) :
  (forall k, (k < n)%nat -> f k = (- g k)%R) -> Rsum n f = (- Rsum n g)%R.
Proof.
  induction n as [|n IH]; intros H; simpl; [ring|].
  rewrite IH by (intros k Hk; apply H; lia).
  rewrite (H n) by lia. ring.
Qed.

Lemma specPoint_opp (d : Z) (s : R) (p q : PointND) :
  (forall k, (k < Z.to_nat d)%nat -> nth k q 0%R = (- nth k p 0)%R) ->
  specPoint d s q = scalePoint (-1) (specPoint d s p).
Proof.
  intros H. unfold specPoint, scalePoint. cbv zeta. cbn [x y nmul].
  rewrite (Rsum_opp _
             (fun k => nth k q 0 * cos (PI * INR k / (IZR d - 1.5)))%R
             (fun k => nth k p 0 * cos (PI * INR k / (IZR d - 1.5)))%R)
    by (intros k Hk; cbv beta; rewrite H by assumption; ring).
  rewrite (Rsum_opp _
             (fun k => nth k q 0 * sin (PI * INR k / (IZR d - 1.5)))%R
             (fun k => nth k p 0 * sin (PI * INR k / (IZR d - 1.5)))%R)
    by (intros k Hk; cbv beta; rewrite H by assumption; ring).
  f_equal; f_equal; ring.
Qed.

Lemma vertexAt_complement (d i : Z) (k : nat) :
  d <= 30 -> 0 <= i < 2 ^ d -> (k < Z.to_nat d)%nat ->
  nth k (vertexAt d (2 ^ d - 1 - i)) 0%R = (- nth k (vertexAt d i) 0)%R.
Proof.
  intros Hd Hi Hk.
  assert (Hj : 0 <= Z.of_nat k < d) by lia.
  assert (Hc : 0 <= 2 ^ d - 1 - i < 2 ^ d) by lia.
  pose proof (nth_coordinate_small d i _ Hd Hi Hj) as H1.
  pose proof (nth_coordinate_small d _ _ Hd Hc Hj) as H2.
  rewrite Nat2Z.id in H1, H2.
  rewrite (nth_error_nth _ _ 0%R H1), (nth_error_nth _ _ 0%R H2).
  rewrite testbit_complement by lia.
  destruct (Z.testbit i (Z.of_nat k)); simpl; lra.
Qed.

(** For [0 <= d <= 30] the picture is symmetric about the origin: among
    the vertices that are returned, the one with the complementary index
    [2^d - 1 - i] is projected to the opposite of the point vertex [i] is
    projected to. *)
Theorem projection_symmetric (d i : Z) (s : R) (h : Hypercube) :
  0 <= d <= 30 -> 0 <= i < 2 ^ d ->
  generateHypercube d = Ok h ->
  at_index (projectedVertices (vertices h) d s) (2 ^ d - 1 - i) =
  option_map (scalePoint (-1))
    (at_index (projectedVertices (vertices h) d s) i).
Proof.
  intros Hd Hi Hh.
  assert (Hcases : d = 0 \/ d = 1 \/ d = 2 \/ 3 <= d) by lia.
  destruct Hcases as [-> | [-> | [-> | H3]]].
  - assert (i = 0) by (simpl in Hi; lia). subst i.
    unfold projectedVertices, scalePoint, at_index. simpl. point_eq.
  - assert (Hi' : i = 0 \/ i = 1) by (simpl in Hi; lia).
    destruct Hi' as [-> | ->];
      unfold projectedVertices, scalePoint, at_index; simpl; point_eq.
  - assert (Hi' : i = 0 \/ i = 1 \/ i = 2 \/ i = 3) by (simpl in Hi; lia).
    destruct Hi' as [-> | [-> | [-> | ->]]];
      unfold projectedVertices, scalePoint, at_index; simpl; point_eq.
  - apply generate_ok in Hh; [|lia]. destruct Hh as [-> _].
    cbn [vertices cube]. unfold projectedVertices.
    destruct (Z.eqb_spec d 0); [lia|].
    destruct (Z.eqb_spec d 1); [lia|].
    destruct (Z.eqb_spec d 2); [lia|].
    unfold at_index.
    destruct (Z.ltb_spec i 0); [lia|].
    destruct (Z.ltb_spec (2 ^ d - 1 - i) 0); [lia|].
    rewrite !nth_error_map, !nth_vertex_small by lia. simpl.
    f_equal.
    rewrite !projectPoint_spec by (try apply length_vertexAt; lia).
    apply specPoint_opp. intros k Hk.
    apply vertexAt_complement; lia.
Qed.

Lemma projection_symmetric_witness :
  at_index (projectedVertices (vertices (cube 3)) 3 100) (2 ^ 3 - 1 - 2) =
  option_map (scalePoint (-1))
    (at_index (projectedVertices (vertices (cube 3)) 3 100) 2).
Proof.
  apply (projection_symmetric 3 2 100 (cube 3));
    [lia | simpl; lia | vm_compute; reflexivity].
Defined.

(** ** The rendering *)

Lemma range_nonpos (n : Z) : n <= 0 -> range n = [].
Proof. intros Hn. unfold range. now replace (Z.to_nat n) with 0%nat by lia. Qed.

(** When [1 << d] is not positive no loop runs, whatever [d]. *)
Lemma generate_no_vertex (d : Z) :
  1 <= d -> Int32.shl 1 d <= 0 ->
  generateHypercube d = Ok {| vertices := []; edges := [] |}.
Proof.
  intros Hd Hn. unfold generateHypercube.
  destruct (Z.ltb_spec d 1); [lia|]. cbv zeta.
  unfold for_loopE at 1 3. now rewrite range_nonpos by assumption.
Qed.

Lemma generate_returns_small (d : Z) :
  0 <= d <= 28 -> exists h, generateHypercube d = Ok h.
Proof.
  intros Hd. destruct (Z.eq_dec d 0) as [->|].
  - eexists. reflexivity.
  - exists (cube d). apply generate_small. lia.
Qed.

Lemma projected_length_generated (d : Z) (s : R) (h : Hypercube) :
  generateHypercube d = Ok h ->
  length (projectedVertices (vertices h) d s) = length (vertices h).
Proof.
  intros Hh. unfold projectedVertices.
  destruct (Z.eqb_spec d 0) as [->|];
    [rewrite generate_below_one in Hh by lia; injection Hh as <-; reflexivity|].
  destruct (Z.eqb_spec d 1) as [->|];
    [rewrite generate_small in Hh by lia; injection Hh as <-;
     vm_compute; reflexivity|].
  destruct (Z.eqb_spec d 2) as [->|];
    [rewrite generate_small in Hh by lia; injection Hh as <-;
     vm_compute; reflexivity|].
  apply length_map.
Qed.

Lemma returned_vertices_length (d : Z) (h : Hypercube) :
  0 <= d <= 30 -> generateHypercube d = Ok h ->
  Z.of_nat (length (vertices h)) = 2 ^ d.
Proof.
  intros Hd Hh. destruct (Z.eq_dec d 0) as [->|].
  - injection Hh as <-. reflexivity.
  - apply generate_ok in Hh; [|lia]. destruct Hh as [-> _].
    apply cubeVertices_length. lia.
Qed.

Lemma returned_edges_in_bounds (d : Z) (h : Hypercube) (i j : Z) :
  0 <= d <= 30 -> generateHypercube d = Ok h -> In (i, j) (edges h) ->
  0 <= i < 2 ^ d /\ 0 <= j < 2 ^ d.
Proof.
  intros Hd Hh Hin. destruct (Z.eq_dec d 0) as [->|].
  - injection Hh as <-. destruct Hin.
  - apply generate_ok in Hh; [|lia]. destruct Hh as [-> _].
    cbn [edges cube] in Hin.
    apply in_cubeEdges_small in Hin; [|lia].
    destruct Hin as [Hi [b [Hb [Hc ->]]]].
    destruct (neighbor_small d i b ltac:(lia) Hi Hb) as [_ [Hr Hx]].
    rewrite Hc in Hx. rewrite Hx in Hr. split; assumption.
Qed.

Lemma at_index_in_bounds {A : Type} (l : list A) (i : Z) :
  0 <= i < Z.of_nat (length l) -> exists a, at_index l i = Some a.
Proof.
  intros Hi. unfold at_index. destruct (Z.ltb_spec i 0); [lia|].
  destruct (nth_error l (Z.to_nat i)) as [a|] eqn:E; [now exists a|].
  apply nth_error_None in E. lia.
Qed.

Lemma drawEdge_in_bounds (projected : list Point2D) (i j : Z) :
  0 <= i < Z.of_nat (length projected) ->
  0 <= j < Z.of_nat (length projected) ->
  exists p1 p2,
    at_index projected i = Some p1 /\ at_index projected j = Some p2 /\
    drawEdge projected (i, j) =
    Some {| x1 := x p1; y1 := y p1; x2 := x p2; y2 := y p2 |}.
Proof.
  intros Hi Hj.
  destruct (at_index_in_bounds projected i Hi) as [p1 H1].
  destruct (at_index_in_bounds projected j Hj) as [p2 H2].
  exists p1, p2. split; [exact H1|]. split; [exact H2|].
  unfold drawEdge. now rewrite H1, H2.
Qed.

Lemma visualizer_draws (d : Z) (s : R) (c : String.string) (h : Hypercube) :
  generateHypercube d = Ok h -> vertices h <> [] ->
  HypercubeVisualizer d s c =
  Ok (Some {| stroke := c;
              lines := map (drawEdge (projectedVertices (vertices h) d s)) (edges h);
              fill := c;
              circles := map (fun p => {| cx := x p; cy := y p |})
                             (projectedVertices (vertices h) d s) |}).
Proof.
  intros Hh Hne. unfold HypercubeVisualizer. rewrite Hh. simpl bind.
  destruct (Nat.eqb_spec (length (projectedVertices (vertices h) d s)) 0) as [E|E];
    [|reflexivity].
  rewrite (projected_length_generated d s h Hh) in E.
  apply length_zero_iff_nil in E. contradiction.
Qed.

(** The component returns [null] exactly when the dimension is negative
    or is 31 modulo 32 (where [1 << dimension] is negative and no vertex
    is generated). *)
Theorem renders_nothing_iff (d : Z) (s : R) (c : String.string) :
  HypercubeVisualizer d s c = Ok None <-> d < 0 \/ d mod 32 = 31.
Proof.
  split.
  - unfold HypercubeVisualizer.
    destruct (generateHypercube d) as [h|] eqn:Hh; [|discriminate]. simpl bind.
    destruct (Nat.eqb_spec (length (projectedVertices (vertices h) d s)) 0) as [E|E];
      [intros _ | discriminate].
    rewrite (projected_length_generated d s h Hh) in E.
    destruct (Z.ltb_spec d 0) as [Hneg|Hpos]; [now left | right].
    destruct (Z.eq_dec d 0) as [->|Hnz]; [injection Hh as <-; discriminate E|].
    apply generate_ok in Hh; [|lia]. destruct Hh as [-> _].
    cbn [vertices cube] in E. rewrite length_cubeVertices, shl_1_any in E.
    destruct (Z.eqb_spec (d mod 32) 31) as [He|Hne]; [exact He|].
    assert (Hpow : 0 < 2 ^ (d mod 32))
      by (apply Z.pow_pos_nonneg; [lia | apply Z.mod_pos_bound; lia]).
    lia.
  - intros Hd.
    assert (Hgen : generateHypercube d = Ok {| vertices := []; edges := [] |}).
    { destruct (Z.ltb_spec d 0) as [Hneg|Hpos].
      - rewrite generate_below_one by lia.
        destruct (Z.eqb_spec d 0); [lia | reflexivity].
      - destruct Hd as [Hd|Hd]; [lia|].
        assert (1 <= d) by (destruct (Z.eq_dec d 0) as [->|]; [discriminate Hd | lia]).
        apply generate_no_vertex; [assumption|].
        rewrite shl_1_any, Hd. vm_compute. discriminate. }
    unfold HypercubeVisualizer. rewrite Hgen. simpl bind.
    unfold projectedVertices. cbn [vertices].
    destruct (Z.eqb_spec d 0) as [->|]; [destruct Hd as [Hd|Hd]; [lia | discriminate Hd]|].
    destruct (Z.eqb_spec d 1) as [->|]; [destruct Hd as [Hd|Hd]; [lia | discriminate Hd]|].
    destruct (Z.eqb_spec d 2) as [->|]; [destruct Hd as [Hd|Hd]; [lia | discriminate Hd]|].
    reflexivity.
Qed.

(** For [0 <= d <= 28] the generator returns and the component returns a
    drawing with one circle per vertex, [2^d] of them, and one line per
    edge, none skipped: the [n]-th line joins the projections of the two
    ends of the [n]-th edge. *)
Theorem all_edges_drawn (d : Z) (s : R) (c : String.string) :
  0 <= d <= 28 ->
  exists h svg,
    generateHypercube d = Ok h /\
    HypercubeVisualizer d s c = Ok (Some svg) /\
    Z.of_nat (length (circles svg)) = 2 ^ d /\
    length (lines svg) = length (edges h) /\
    forall n i j,
      nth_error (edges h) n = Some (i, j) ->
      exists p1 p2,
        at_index (projectedVertices (vertices h) d s) i = Some p1 /\
        at_index (projectedVertices (vertices h) d s) j = Some p2 /\
        nth_error (lines svg) n =
        Some (Some {| x1 := x p1; y1 := y p1; x2 := x p2; y2 := y p2 |}).
Proof.
  intros Hd.
  destruct (generate_returns_small d Hd) as [h Hh].
  pose proof (returned_vertices_length d h ltac:(lia) Hh) as Hv.
  pose proof (projected_length_generated d s h Hh) as Hp.
  assert (Hpos : 0 < 2 ^ d) by (apply Z.pow_pos_nonneg; lia).
  assert (Hne : vertices h <> []) by (intros E; rewrite E in Hv; simpl in Hv; lia).
  exists h. eexists. split; [exact Hh|].
  split; [exact (visualizer_draws d s c h Hh Hne)|]. cbn [circles lines].
  rewrite !length_map. split; [lia|]. split; [reflexivity|].
  intros n i j Hn.
  assert (Hin : In (i, j) (edges h)) by (eapply nth_error_In; eassumption).
  destruct (returned_edges_in_bounds d h i j ltac:(lia) Hh Hin) as [Hi Hj].
  destruct (drawEdge_in_bounds (projectedVertices (vertices h) d s) i j)
    as [p1 [p2 [H1 [H2 Hdraw]]]]; [lia | lia|].
  exists p1, p2. split; [exact H1|]. split; [exact H2|].
  rewrite nth_error_map, Hn. cbn [option_map]. now rewrite Hdraw.
Qed.

Lemma all_edges_drawn_witness :
  exists h svg,
    generateHypercube 3 = Ok h /\
    HypercubeVisualizer 3 100 String.EmptyString = Ok (Some svg) /\
    Z.of_nat (length (circles svg)) = 2 ^ 3 /\
    length (lines svg) = length (edges h) /\
    forall n i j,
      nth_error (edges h) n = Some (i, j) ->
      exists p1 p2,
        at_index (projectedVertices (vertices h) 3 100) i = Some p1 /\
        at_index (projectedVertices (vertices h) 3 100) j = Some p2 /\
        nth_error (lines svg) n =
        Some (Some {| x1 := x p1; y1 := y p1; x2 := x p2; y2 := y p2 |}).
Proof. apply (all_edges_drawn 3 100 String.EmptyString). lia. Defined.

(** ** The state of the application *)

Import String.StringSyntax.
Delimit Scope string_scope with string.

Lemma run_snoc (s : App.State) (events : list App.Event) (e : App.Event) :
  App.run s (events ++ [e]) = App.handle (App.run s events) e.
Proof. unfold App.run. now rewrite fold_left_app. Qed.

Lemma advance_in_range (d : Z) : 2 <= d <= 9 -> 2 <= App.advance d <= 9.
Proof.
  intros Hd. unfold App.advance. destruct (Z.geb_spec d 9); lia.
Qed.

Lemma handle_keeps_range (s : App.State) (e : App.Event) :
  2 <= App.dimension s <= 9 -> 2 <= App.dimension (App.handle s e) <= 9.
Proof.
  intros Hs. destruct e; simpl; try lia.
  destruct (App.isPlaying s); simpl; [now apply advance_in_range | exact Hs].
Qed.

Lemma run_keeps_range (s : App.State) (events : list App.Event) :
  2 <= App.dimension s <= 9 -> 2 <= App.dimension (App.run s events) <= 9.
Proof.
  revert s. induction events as [|e events IH]; intros s Hs; [exact Hs|].
  apply IH. now apply handle_keeps_range.
Qed.

(** Whatever the sequence of timer events and clicks, the dimension shown
    stays between 2 and 9. *)
Theorem dimension_in_range (s : App.State) :
  App.reachable s -> 2 <= App.dimension s <= 9.
Proof.
  intros [events ->]. apply run_keeps_range. simpl. lia.
Qed.

Lemma dimension_in_range_witness :
  2 <= App.dimension
         (App.run App.initial [App.TimerFired; App.PlayPauseClicked; App.TimerFired]) <= 9.
Proof.
  apply dimension_in_range.
  exists [App.TimerFired; App.PlayPauseClicked; App.TimerFired]. reflexivity.
Defined.

(** While playing, [n] timer events take the dimension [d] (between 2 and
    9) to [2 + (d - 2 + n) mod 8]: the dimensions 2 to 9 are shown in a
    cycle of period 8, and playing goes on. *)
Theorem timer_cycle (s : App.State) (n : nat) :
  App.isPlaying s = true -> 2 <= App.dimension s <= 9 ->
  App.dimension (App.run s (repeat App.TimerFired n)) =
    2 + (App.dimension s - 2 + Z.of_nat n) mod 8 /\
  App.isPlaying (App.run s (repeat App.TimerFired n)) = true.
Proof.
  revert s. induction n as [|n IH]; intros s Hplay Hd.
  - unfold App.run. cbn [repeat fold_left Z.of_nat]. split; [|exact Hplay].
    rewrite Z.add_0_r, Z.mod_small; lia.
  - change (repeat App.TimerFired (S n)) with (App.TimerFired :: repeat App.TimerFired n).
    change (App.run s (App.TimerFired :: repeat App.TimerFired n))
      with (App.run (App.handle s App.TimerFired) (repeat App.TimerFired n)).
    assert (Hplay' : App.isPlaying (App.handle s App.TimerFired) = true)
      by (simpl; rewrite Hplay; reflexivity).
    assert (Hd' : App.dimension (App.handle s App.TimerFired) = App.advance (App.dimension s))
      by (simpl; now rewrite Hplay).
    destruct (IH _ Hplay' (handle_keeps_range s App.TimerFired Hd)) as [IHd IHp].
    split; [|exact IHp].
    rewrite IHd, Hd'. unfold App.advance.
    destruct (Z.geb_spec (App.dimension s) 9); Z.div_mod_to_equations; lia.
Qed.

Lemma timer_cycle_witness :
  App.dimension (App.run App.initial (repeat App.TimerFired 8)) =
    2 + (App.dimension App.initial - 2 + Z.of_nat 8) mod 8 /\
  App.isPlaying (App.run App.initial (repeat App.TimerFired 8)) = true.
Proof. apply (timer_cycle App.initial 8); simpl; [reflexivity | lia]. Defined.

Lemma paused_at_two (s : App.State) (events : list App.Event) :
  App.dimension s = 2 -> App.isPlaying s = false ->
  Forall (fun e => e <> App.PlayPauseClicked) events ->
  App.dimension (App.run s events) = 2 /\ App.isPlaying (App.run s events) = false.
Proof.
  revert s. induction events as [|e events IH]; intros s Hd Hp Hall; [split; assumption|].
  inversion Hall as [|e' l He Hrest]; subst.
  apply IH; [| |exact Hrest]; destruct e; simpl; try rewrite Hp; try assumption;
    try reflexivity; contradiction.
Qed.

(** After a click on reset the dimension is 2 and the animation is paused,
    and both stay so under timer events, further resets and speed changes,
    until play is clicked. *)
Theorem reset_holds (s : App.State) (events : list App.Event) :
  Forall (fun e => e <> App.PlayPauseClicked) events ->
  App.dimension (App.run s (App.ResetClicked :: events)) = 2 /\
  App.isPlaying (App.run s (App.ResetClicked :: events)) = false.
Proof.
  intros Hall.
  change (App.run s (App.ResetClicked :: events))
    with (App.run (App.handle s App.ResetClicked) events).
  apply paused_at_two; [reflexivity | reflexivity | exact Hall].
Qed.

Lemma reset_holds_witness :
  App.dimension (App.run App.initial
    (App.ResetClicked :: [App.TimerFired; App.SpeedChanged 2; App.TimerFired])) = 2 /\
  App.isPlaying (App.run App.initial
    (App.ResetClicked :: [App.TimerFired; App.SpeedChanged 2; App.TimerFired])) = false.
Proof.
  apply (reset_holds App.initial [App.TimerFired; App.SpeedChanged 2; App.TimerFired]).
  repeat constructor; discriminate.
Defined.

(** The fallback colour is used, and the name is undefined, exactly for a
    dimension outside 0..9; inside, the colour is the entry of the table. *)
Theorem tables_cover_0_to_9 (d : Z) :
  (Constants.currentColor d = "#ffffff"%string <-> d < 0 \/ 9 < d) /\
  (at_index Constants.HYPERCUBE_NAMES d = None <-> d < 0 \/ 9 < d) /\
  ((d < 0 \/ 9 < d) \/
   at_index Constants.DIMENSION_COLORS d = Some (Constants.currentColor d)).
Proof.
  destruct (Z.ltb_spec d 0) as [Hneg|Hpos].
  - unfold Constants.currentColor, at_index.
    destruct (Z.ltb_spec d 0); [|lia].
    repeat split; auto.
  - destruct (Z.ltb_spec 9 d) as [Hbig|Hsmall].
    + assert (Hc : at_index Constants.DIMENSION_COLORS d = None)
        by (unfold at_index; destruct (Z.ltb_spec d 0); [lia|];
            apply nth_error_None; simpl; lia).
      assert (Hn : at_index Constants.HYPERCUBE_NAMES d = None)
        by (unfold at_index; destruct (Z.ltb_spec d 0); [lia|];
            apply nth_error_None; simpl; lia).
      unfold Constants.currentColor. rewrite Hc, Hn.
      repeat split; auto.
    + assert (Hcases : d = 0 \/ d = 1 \/ d = 2 \/ d = 3 \/ d = 4 \/
                       d = 5 \/ d = 6 \/ d = 7 \/ d = 8 \/ d = 9) by lia.
      repeat (destruct Hcases as [-> | Hcases]); [..| subst d];
        (split; [split; [intros H; vm_compute in H; discriminate H | lia]|];
         split; [split; [intros H; vm_compute in H; discriminate H | lia]|];
         right; reflexivity).
Qed.

(** In every state the application can reach, the generator returns and
    the visualizer draws something: the drawing has [2^dimension] circles
    and a line for every edge, none of them skipped, its colour is the
    entry of the colour table, and the dimension has a name. *)
Theorem reachable_view (s : App.State) :
  App.reachable s ->
  exists h svg nm,
    generateHypercube (App.dimension s) = Ok h /\
    App.view s = Ok (Some svg) /\
    Z.of_nat (length (circles svg)) = 2 ^ App.dimension s /\
    length (lines svg) = length (edges h) /\
    Forall (fun l => l <> None) (lines svg) /\
    at_index Constants.DIMENSION_COLORS (App.dimension s) = Some (stroke svg) /\
    App.name s = Some nm.
Proof.
  intros [events ->].
  assert (Hd : 2 <= App.dimension (App.run App.initial events) <= 9)
    by (apply run_keeps_range; simpl; lia).
  set (d := App.dimension (App.run App.initial events)) in *.
  unfold App.view, App.name. fold d.
  destruct (generate_returns_small d ltac:(lia)) as [h Hh].
  pose proof (returned_vertices_length d h ltac:(lia) Hh) as Hv.
  pose proof (projected_length_generated d 100 h Hh) as Hp.
  assert (Hpos : 0 < 2 ^ d) by (apply Z.pow_pos_nonneg; lia).
  assert (Hne : vertices h <> []) by (intros E; rewrite E in Hv; simpl in Hv; lia).
  assert (Hcol : at_index Constants.DIMENSION_COLORS d = Some (Constants.currentColor d)).
  { assert (Hcases : d = 2 \/ d = 3 \/ d = 4 \/ d = 5 \/ d = 6 \/ d = 7 \/ d = 8 \/ d = 9)
      by lia.
    clear - Hcases. clearbody d.
    repeat (destruct Hcases as [-> | Hcases]); [..| subst d]; reflexivity. }
  destruct (at_index_in_bounds Constants.HYPERCUBE_NAMES d) as [nm Hnm]; [simpl; lia|].
  exists h. eexists. exists nm. split; [exact Hh|].
  split; [exact (visualizer_draws d 100 _ h Hh Hne)|]. cbn [circles lines stroke].
  rewrite !length_map.
  split; [lia|]. split; [reflexivity|]. split; [|split; assumption].
  apply Forall_forall. intros l Hl. apply in_map_iff in Hl.
  destruct Hl as [[i j] [<- Hin]].
  destruct (returned_edges_in_bounds d h i j ltac:(lia) Hh Hin) as [Hi Hj].
  destruct (drawEdge_in_bounds (projectedVertices (vertices h) d 100) i j)
    as [p1 [p2 [_ [_ Hdraw]]]]; [lia | lia|].
  rewrite Hdraw. discriminate.
Qed.

Lemma reachable_view_witness :
  exists h svg nm,
    generateHypercube (App.dimension App.initial) = Ok h /\
    App.view App.initial = Ok (Some svg) /\
    Z.of_nat (length (circles svg)) = 2 ^ App.dimension App.initial /\
    length (lines svg) = length (edges h) /\
    Forall (fun l => l <> None) (lines svg) /\
    at_index Constants.DIMENSION_COLORS (App.dimension App.initial) = Some (stroke svg) /\
    App.name App.initial = Some nm.
Proof. apply (reachable_view App.initial). exists []. reflexivity. Defined.

(** With the speed inside the range of the slider, 0.5 to 4, the delay of
    the timer is between 750 and 6000 milliseconds. *)
Theorem interval_bounds (s : App.State) :
  (0.5 <= App.speed s <= 4)%R ->
  (750 <= App.interval s <= 6000)%R.
Proof.
  intros [Hlo Hhi]. unfold App.interval.
  assert (Hpos : (0 < App.speed s)%R) by lra.
  split.
  - apply Rmult_le_reg_r with (App.speed s); [exact Hpos|].
    unfold Rdiv. rewrite Rmult_assoc, Rinv_l by lra. lra.
  - apply Rmult_le_reg_r with (App.speed s); [exact Hpos|].
    unfold Rdiv. rewrite Rmult_assoc, Rinv_l by lra. lra.
Qed.

Lemma interval_bounds_witness :
  (750 <= App.interval App.initial <= 6000)%R.
Proof. apply (interval_bounds App.initial). simpl. lra. Defined.
